(** * 2-bit ADPCM codec: encoder and decoder of the Python scripts

    Shallow embedding of [encode_2bit_adpcm] (scripts/wav_to_adpcm_c.py) and
    [decode_2bit_adpcm] (scripts/adpcm_2bit_decoder.py), and of the integer
    parts of the scripts around them: the MIDI reader of
    scripts/midi_to_buzzer_c.py, the difference signals of
    scripts/compare_audio.py and the files scripts/wav_to_adpcm_c.py writes.

    Python integers are unbounded, so every integer is a [Z].  The operations
    of Python that can raise ([list[i]], [a << n], [a >> n], [bytes(list)])
    return [option]; an exception is [None] and is propagated by [bind]. *)

From Stdlib Require Import ZArith List Lia ZifyNat Bool Sorted Permutation.
From Stdlib Require Ascii String.
Import ListNotations.
Local Open Scope Z_scope.

(** ** A small error monad *)

Definition bind {A B : Type} (m : option A) (f : A -> option B) : option B :=
  match m with
  | Some a => f a
  | None => None
  end.

Notation "x <- m ;; k" := (bind m (fun x => k))
  (at level 61, m at next level, right associativity).
Notation "' pat <- m ;; k" := (bind m (fun x => match x with pat => k end))
  (at level 61, pat pattern, m at next level, right associativity).

(** ** The Python primitives the two functions use *)

Module Py.

(** [l[i]]: negative indices count from the end, anything else out of range
    raises IndexError. *)
Definition getitem (l : list Z) (i : Z) : option Z :=
  let n := Z.of_nat (length l) in
  if 0 <=? i then nth_error l (Z.to_nat i)
  else if - n <=? i then nth_error l (Z.to_nat (n + i))
  else None.

(** [a << n]: raises ValueError on a negative shift count. *)
Definition lshift (a n : Z) : option Z :=
  if n <? 0 then None else Some (Z.shiftl a n).

(** [a >> n]: raises ValueError on a negative shift count; on a negative [a]
    it rounds down, as [Z.shiftr] does. *)
Definition rshift (a n : Z) : option Z :=
  if n <? 0 then None else Some (Z.shiftr a n).

Definition is_byte (b : Z) : bool := (0 <=? b) && (b <? 256).

(** [bytes(l)]: raises ValueError unless every element is in range(256). *)
Definition bytes (l : list Z) : option (list Z) :=
  if forallb is_byte l then Some l else None.

(** [range(4)] *)
Definition range4 : list Z := [0; 1; 2; 3].

(** A slice bound as Python reads it: a negative bound counts from the end,
    and every bound is brought into [0, len]. *)
Definition slice_bound (len i : Z) : Z :=
  if i <? 0 then Z.max 0 (i + len) else Z.min i len.

(** [data[lo:hi]]: never raises; empty when the bounds cross. *)
Definition slice (data : list Z) (lo hi : Z) : list Z :=
  let len := Z.of_nat (length data) in
  let lo := slice_bound len lo in
  let hi := slice_bound len hi in
  firstn (Z.to_nat (hi - lo)) (skipn (Z.to_nat lo) data).

End Py.

(** ** The encoder, wav_to_adpcm_c.py *)

Module Encoder.

Definition step_table : list Z :=
  [2; 3; 4; 5; 6; 8; 10; 13; 16; 20; 25; 32; 40; 50; 63; 80].

Definition index_table : list Z := [-1; -1; 2; 2].

(** The variables the loop carries from one sample to the next. *)
Record state : Type := mkState {
  predictor : Z;
  step_index : Z;
  encoded : list Z;
  current_byte : Z;
  sample_in_byte : Z
}.

Definition initial : state :=
  {| predictor := 128; step_index := 0;
     encoded := []; current_byte := 0; sample_in_byte := 0 |}.

(** The threshold chain of lines 60-67; [/] on [Z] rounds down as [//]. *)
Definition choose_code (diff step : Z) : Z :=
  if diff <? - step - step / 2 then 2
  else if diff <? 0 then 0
  else if diff <? step + step / 2 then 1
  else 3.

(** Lines 46-67: the step looked up and the code chosen for [sample]. *)
Definition quantize (st : state) (sample : Z) : option (Z * Z) :=
  let diff := sample - predictor st in
  step <- Py.getitem step_table (step_index st) ;;
  Some (step, choose_code diff step).

(** Lines 69-105: pack the code, move the predictor, adapt the step. *)
Definition update (st : state) (step code : Z) : option state :=
  let shift := 6 - sample_in_byte st * 2 in
  shifted <- Py.lshift code shift ;;
  let current_byte := Z.lor (current_byte st) shifted in
  let delta :=
    if code =? 0 then - step
    else if code =? 1 then step
    else if code =? 2 then - step * 2
    else step * 2 in
  let new_predictor := predictor st + delta in
  let new_predictor :=
    if new_predictor <? 0 then 0
    else if new_predictor >? 255 then 255
    else new_predictor in
  adj <- Py.getitem index_table code ;;
  let step_index := step_index st + adj in
  let step_index :=
    if step_index <? 0 then 0
    else if step_index >? 15 then 15
    else step_index in
  let sample_in_byte := sample_in_byte st + 1 in
  if sample_in_byte >=? 4 then
    Some {| predictor := new_predictor; step_index := step_index;
            encoded := encoded st ++ [current_byte];
            current_byte := 0; sample_in_byte := 0 |}
  else
    Some {| predictor := new_predictor; step_index := step_index;
            encoded := encoded st;
            current_byte := current_byte; sample_in_byte := sample_in_byte |}.

(** One iteration of [for sample in audio_data]. *)
Definition body (st : state) (sample : Z) : option state :=
  '(step, code) <- quantize st sample ;;
  update st step code.

Fixpoint loop (st : state) (audio_data : list Z) : option state :=
  match audio_data with
  | [] => Some st
  | sample :: rest => st' <- body st sample ;; loop st' rest
  end.

(** Lines 107-111. *)
Definition finish (st : state) : option (list Z) :=
  let encoded :=
    if sample_in_byte st >? 0 then encoded st ++ [current_byte st]
    else encoded st in
  Py.bytes encoded.

Definition encode_2bit_adpcm (audio_data : list Z) : option (list Z) :=
  st <- loop initial audio_data ;;
  finish st.

End Encoder.

(** ** The decoder, adpcm_2bit_decoder.py *)

Module Decoder.

Definition step_table : list Z :=
  [2; 3; 4; 5; 6; 8; 10; 13; 16; 20; 25; 32; 40; 50; 63; 80].

Definition index_table : list Z := [-1; -1; 2; 2].

Record state : Type := mkState {
  predictor : Z;
  step_index : Z;
  decoded : list Z
}.

Definition initial : state :=
  {| predictor := 128; step_index := 0; decoded := [] |}.

(** Lines 36-37: the code in bit pair [i] of [byte_val]. *)
Definition extract (byte_val i : Z) : option Z :=
  let shift := 6 - i * 2 in
  shifted <- Py.rshift byte_val shift ;;
  Some (Z.land shifted 3).

(** Lines 39-67: move the predictor, store the sample, adapt the step. *)
Definition update (st : state) (code : Z) : option state :=
  step <- Py.getitem step_table (step_index st) ;;
  let delta :=
    if code =? 0 then - step
    else if code =? 1 then step
    else if code =? 2 then - step * 2
    else step * 2 in
  let new_predictor := predictor st + delta in
  let new_predictor :=
    if new_predictor <? 0 then 0
    else if new_predictor >? 255 then 255
    else new_predictor in
  let decoded := decoded st ++ [new_predictor] in
  adj <- Py.getitem index_table code ;;
  let step_index := step_index st + adj in
  let step_index :=
    if step_index <? 0 then 0
    else if step_index >? 15 then 15
    else step_index in
  Some {| predictor := new_predictor; step_index := step_index;
          decoded := decoded |}.

(** One iteration of [for i in range(4)]. *)
Definition body (st : state) (byte_val i : Z) : option state :=
  code <- extract byte_val i ;;
  update st code.

Fixpoint inner (st : state) (byte_val : Z) (indices : list Z) : option state :=
  match indices with
  | [] => Some st
  | i :: rest => st' <- body st byte_val i ;; inner st' byte_val rest
  end.

Fixpoint loop (st : state) (compressed_data : list Z) : option state :=
  match compressed_data with
  | [] => Some st
  | byte_val :: rest => st' <- inner st byte_val Py.range4 ;; loop st' rest
  end.

Definition decode_2bit_adpcm (compressed_data : list Z) : option (list Z) :=
  st <- loop initial compressed_data ;;
  Py.bytes (decoded st).

End Decoder.

(** ** Results of loops that are not bounded by their input's structure

    [Raises] is a Python exception, [OutOfFuel] the model's loop bound running
    out; the theorems show the bound given to each loop is never reached. *)

Inductive run (A : Type) : Type :=
| Returns (a : A)
| Raises
| OutOfFuel.

Arguments Returns {A} a.
Arguments Raises {A}.
Arguments OutOfFuel {A}.

Definition rbind {A B : Type} (m : run A) (f : A -> run B) : run B :=
  match m with
  | Returns a => f a
  | Raises => Raises
  | OutOfFuel => OutOfFuel
  end.

Definition lift {A : Type} (m : option A) : run A :=
  match m with
  | Some a => Returns a
  | None => Raises
  end.

Notation "x <~ m ;; k" := (rbind m (fun x => k))
  (at level 61, m at next level, right associativity).
Notation "' pat <~ m ;; k" := (rbind m (fun x => match x with pat => k end))
  (at level 61, pat pattern, m at next level, right associativity).

(** ** The MIDI reader, midi_to_buzzer_c.py *)

Module Midi.

(** [struct.unpack(">H", be)[0]]: raises unless [be] has two bytes. *)
Definition read_u16 (be : list Z) : option Z :=
  match be with
  | [b0; b1] => Some (b0 * 256 + b1)
  | _ => None
  end.

(** [struct.unpack(">I", be)[0]]: raises unless [be] has four bytes. *)
Definition read_u32 (be : list Z) : option Z :=
  match be with
  | [b0; b1; b2; b3] => Some (((b0 * 256 + b1) * 256 + b2) * 256 + b3)
  | _ => None
  end.

(** The [while True] loop of [read_vlq]. *)
Fixpoint read_vlq_loop (fuel : nat) (data : list Z) (val offset : Z)
  : run (Z * Z) :=
  match fuel with
  | O => OutOfFuel
  | S fuel' =>
      b <~ lift (Py.getitem data offset) ;;
      let offset := offset + 1 in
      let val := Z.lor (Z.shiftl val 7) (Z.land b 0x7F) in
      if Z.land b 0x80 =? 0 then Returns (val, offset)
      else read_vlq_loop fuel' data val offset
  end.

Definition read_vlq (data : list Z) (offset : Z) : run (Z * Z) :=
  read_vlq_loop (S (Z.to_nat (Z.of_nat (length data) - offset))) data 0 offset.

Inductive event_type : Type := meta | note_on | note_off.

Record MidiEvent : Type := mkEvent {
  abs_ticks : Z;
  type : event_type;
  channel : option Z;
  note : option Z;
  velocity : option Z;
  meta_type : option Z;
  meta_data : list Z
}.

Record Track : Type := mkTrack {
  events : list MidiEvent;
  name : option (list Z)
}.

(** The variables of the loop of [_parse_track]. *)
Record cursor : Type := mkCursor {
  off : Z;
  ticks : Z;
  running_status : option Z;
  t : Track
}.

Definition append (tr : Track) (ev : MidiEvent) : Track :=
  {| events := events tr ++ [ev]; name := name tr |}.

(** Lines 71-77: the status of this event, the offset after it and the
    running status to carry on. *)
Definition read_status (trk_data : list Z) (c : cursor) (off : Z)
  : run (Z * Z * option Z) :=
  status_byte <~ lift (Py.getitem trk_data off) ;;
  if status_byte <? 0x80 then
    match running_status c with
    | None => Raises
    | Some status => Returns (status, off, running_status c)
    end
  else
    let status := status_byte in
    let off := off + 1 in
    Returns (status, off, if status <? 0xF0 then Some status else None).

(** One iteration of [while off < len(trk_data)].  A track name is kept as
    the bytes of the meta data: latin1 maps each byte to the character of the
    same number and cannot fail. *)
Definition track_body (trk_data : list Z) (c : cursor) : run cursor :=
  '(delta, off) <~ read_vlq trk_data (off c) ;;
  let abs_ticks := ticks c + delta in
  '(status, off, running_status) <~ read_status trk_data c off ;;
  if status =? 0xFF then
    meta_type <~ lift (Py.getitem trk_data off) ;;
    let off := off + 1 in
    '(length, off) <~ read_vlq trk_data off ;;
    let meta_data := Py.slice trk_data off (off + length) in
    let off := off + length in
    let ev := mkEvent abs_ticks meta None None None (Some meta_type) meta_data in
    let t := append (t c) ev in
    let t := if meta_type =? 0x03
             then {| events := events t; name := Some meta_data |} else t in
    Returns (mkCursor off abs_ticks running_status t)
  else if (status =? 0xF0) || (status =? 0xF7) then
    '(length, off) <~ read_vlq trk_data off ;;
    let off := off + length in
    Returns (mkCursor off abs_ticks running_status (t c))
  else
    let msg_type := Z.land status 0xF0 in
    let ch := Z.land status 0x0F in
    if (msg_type =? 0x80) || (msg_type =? 0x90) || (msg_type =? 0xA0)
       || (msg_type =? 0xB0) || (msg_type =? 0xE0) then
      d1 <~ lift (Py.getitem trk_data off) ;;
      d2 <~ lift (Py.getitem trk_data (off + 1)) ;;
      let off := off + 2 in
      let t :=
        if msg_type =? 0x90 then
          if d2 =? 0 then
            append (t c) (mkEvent abs_ticks note_off (Some ch) (Some d1) (Some 0) None [])
          else
            append (t c) (mkEvent abs_ticks note_on (Some ch) (Some d1) (Some d2) None [])
        else if msg_type =? 0x80 then
          append (t c) (mkEvent abs_ticks note_off (Some ch) (Some d1) (Some d2) None [])
        else t c in
      Returns (mkCursor off abs_ticks running_status t)
    else if (msg_type =? 0xC0) || (msg_type =? 0xD0) then
      d1 <~ lift (Py.getitem trk_data off) ;;
      let off := off + 1 in
      Returns (mkCursor off abs_ticks running_status (t c))
    else Raises.

Fixpoint track_loop (fuel : nat) (trk_data : list Z) (c : cursor) : run cursor :=
  if off c <? Z.of_nat (length trk_data) then
    match fuel with
    | O => OutOfFuel
    | S fuel' => c' <~ track_body trk_data c ;; track_loop fuel' trk_data c'
    end
  else Returns c.

Definition _parse_track (trk_data : list Z) : run Track :=
  c <~ track_loop (length trk_data) trk_data
         (mkCursor 0 0 None (mkTrack [] None)) ;;
  Returns (t c).

(** The result of [MidiMinimal(path)]: the attributes [_parse] sets. *)
Record MidiMinimal : Type := mkMidi {
  format : Z;
  ntrks : Z;
  division : Z;
  tracks : list Track
}.

Definition MThd : list Z := [77; 84; 104; 100].
Definition MTrk : list Z := [77; 84; 114; 107].

(** [for _ in range(self.ntrks)] of [_parse]. *)
Fixpoint tracks_loop (n : nat) (data : list Z) (off : Z) (tracks : list Track)
  : run (list Track) :=
  match n with
  | O => Returns tracks
  | S n' =>
      if list_eq_dec Z.eq_dec (Py.slice data off (off + 4)) MTrk then
        let off := off + 4 in
        trk_len <~ lift (read_u32 (Py.slice data off (off + 4))) ;;
        let off := off + 4 in
        let trk_data := Py.slice data off (off + trk_len) in
        let off := off + trk_len in
        tr <~ _parse_track trk_data ;;
        tracks_loop n' data off (tracks ++ [tr])
      else Raises
  end.

(** [_parse] on the bytes of the file. *)
Definition _parse (data : list Z) : run MidiMinimal :=
  let off := 0 in
  if list_eq_dec Z.eq_dec (Py.slice data off (off + 4)) MThd then
    let off := off + 4 in
    hdr_len <~ lift (read_u32 (Py.slice data off (off + 4))) ;;
    let off := off + 4 in
    let hdr := Py.slice data off (off + hdr_len) in
    let off := off + hdr_len in
    format <~ lift (read_u16 (Py.slice hdr 0 2)) ;;
    ntrks <~ lift (read_u16 (Py.slice hdr 2 4)) ;;
    division <~ lift (read_u16 (Py.slice hdr 4 6)) ;;
    if Z.land division 0x8000 =? 0 then
      tracks <~ tracks_loop (Z.to_nat ntrks) data off [] ;;
      Returns (mkMidi format ntrks division tracks)
    else Raises
  else Raises.

(** [list.sort(key=lambda x: x[0])]: the sort is stable, so its result is
    the one insertion gives when an element goes in front of the first
    element of the sorted rest whose key is not smaller. *)
Fixpoint insert_by_key {A : Type} (x : Z * A) (l : list (Z * A)) : list (Z * A) :=
  match l with
  | [] => [x]
  | y :: rest =>
      if fst x <=? fst y then x :: y :: rest
      else y :: insert_by_key x rest
  end.

Fixpoint sort_by_key {A : Type} (l : list (Z * A)) : list (Z * A) :=
  match l with
  | [] => []
  | x :: rest => insert_by_key x (sort_by_key rest)
  end.

Definition DEFAULT_TEMPO : Z := 500000.

(** The tempo an event contributes to the map, lines 132-134. *)
Definition tempo_of (ev : MidiEvent) : list (Z * Z) :=
  match type ev, meta_type ev, meta_data ev with
  | meta, Some 0x51, [b0; b1; b2] =>
      [(abs_ticks ev, Z.lor (Z.lor (Z.shiftl b0 16) (Z.shiftl b1 8)) b2)]
  | _, _, _ => []
  end.

Definition build_tempo_map (first_track_events : list MidiEvent) : list (Z * Z) :=
  let tempos := [(0, DEFAULT_TEMPO)] ++ flat_map tempo_of first_track_events in
  sort_by_key tempos.

(** Lines 164-171 of [main]: [on_stacks] is a [defaultdict(list)], a total
    map whose unset keys hold the empty list. *)
Definition on_stacks_t : Type := option Z -> list Z.

Definition key_eqb (a b : option Z) : bool :=
  match a, b with
  | Some x, Some y => x =? y
  | None, None => true
  | _, _ => false
  end.

Definition set_stack (m : on_stacks_t) (k : option Z) (v : list Z) : on_stacks_t :=
  fun k' => if key_eqb k' k then v else m k'.

Definition collect_body (acc : on_stacks_t * list (Z * (Z * option Z)))
    (ev : MidiEvent) : on_stacks_t * list (Z * (Z * option Z)) :=
  let '(on_stacks, notes) := acc in
  match type ev with
  | note_on =>
      (set_stack on_stacks (note ev) (on_stacks (note ev) ++ [abs_ticks ev]), notes)
  | note_off =>
      match on_stacks (note ev) with
      | [] => (on_stacks, notes)
      | st :: rest =>
          (set_stack on_stacks (note ev) rest,
           notes ++ [(st, (abs_ticks ev, note ev))])
      end
  | meta => (on_stacks, notes)
  end.

(** The note intervals [(start_tick, end_tick, pitch)] of a track, sorted by
    start (line 174). *)
Definition collect_notes (events : list MidiEvent) : list (Z * (Z * option Z)) :=
  let '(_, notes) := fold_left collect_body events (fun _ => [], []) in
  sort_by_key notes.

End Midi.

(** ** The integer arithmetic of compare_audio.py

    The arrays are numpy arrays of fixed width: [uint8] samples, [int16]
    differences.  Each operation is taken element by element and wraps to
    the width of its array. *)

Module Compare.

(** [astype(np.int16)] and the result of any [int16] operation. *)
Definition int16 (x : Z) : Z := (x + 32768) mod 65536 - 32768.

(** [astype(np.uint8)]. *)
Definition uint8 (x : Z) : Z := x mod 256.

(** [a.clip(lo, hi)], the minimum of [hi] and the maximum of [a] and [lo]. *)
Definition clip (a lo hi : Z) : Z := Z.min (Z.max a lo) hi.

(** Line 69, one element. *)
Definition diff_sample (original decoded : Z) : Z :=
  int16 (int16 original - int16 decoded).

(** Lines 59-69: [None] is the exit with an error message when the rates or
    the lengths differ. *)
Definition difference (rate1 rate2 : Z) (original decoded : list Z)
  : option (list Z) :=
  if negb (rate1 =? rate2) then None
  else if negb (Nat.eqb (length original) (length decoded)) then None
  else Some (map (fun p => diff_sample (fst p) (snd p)) (combine original decoded)).

(** [np.abs(diff)], one element. *)
Definition abs16 (d : Z) : Z := int16 (Z.abs d).

(** [diff**2], one element: the array is [int16] and so is its square. *)
Definition squared (d : Z) : Z := int16 (d * d).

(** Line 122. *)
Definition diff_centered (d : Z) : Z := clip (int16 (d + 128)) 0 255.

(** Line 129. *)
Definition diff_abs (d : Z) : Z := clip (abs16 d) 0 255.

(** Lines 137-138. *)
Definition amplification : Z := 10.
Definition diff_amplified (d : Z) : Z :=
  clip (int16 (diff_abs d * amplification)) 0 255.

(** [write_wav]: the frames written, line 40. *)
Definition write_wav (samples : list Z) : list Z := map uint8 samples.

Definition difference_raw (diff : list Z) : list Z :=
  write_wav (map diff_centered diff).
Definition difference_absolute (diff : list Z) : list Z :=
  write_wav (map diff_abs diff).
Definition difference_amplified_10x (diff : list Z) : list Z :=
  write_wav (map diff_amplified diff).

End Compare.

(** ** What [main] of wav_to_adpcm_c.py writes *)

Module Emit.

Import Ascii String.

(** [struct.pack('<I', n)]: four bytes, least significant first; raises
    outside [0, 2^32). *)
Definition pack_I (n : Z) : option (list Z) :=
  if (0 <=? n) && (n <? 2 ^ 32) then
    Some [n mod 256; n / 256 mod 256; n / 65536 mod 256; n / 16777216 mod 256]
  else None.

(** [struct.pack('<H', n)]: two bytes; raises outside [0, 2^16). *)
Definition pack_H (n : Z) : option (list Z) :=
  if (0 <=? n) && (n <? 2 ^ 16) then Some [n mod 256; n / 256 mod 256]
  else None.

Definition RIFF : list Z := [82; 73; 70; 70].
Definition WAVE : list Z := [87; 65; 86; 69].
Definition fmt_ : list Z := [102; 109; 116; 32].
Definition fact : list Z := [102; 97; 99; 116].
Definition data : list Z := [100; 97; 116; 97].

(** Lines 208-258: the bytes written to [out_raw_wav] for the IMA ADPCM
    codec, in the order of the writes. *)
Definition from_raw_wav (raw : list Z) : option (list Z) :=
  let sample_rate := 8000 in
  let channels := 1 in
  let data_size := Z.of_nat (List.length raw) in
  let block_align := 1024 in
  let bits_per_sample := 4 in
  let samples_per_block := 1 + (block_align - 4) * 2 in
  let num_blocks := (data_size + block_align - 1) / block_align in
  let num_samples := samples_per_block * num_blocks in
  w1 <- pack_I (36 + 12 + data_size) ;;
  w2 <- pack_I 20 ;;
  w3 <- pack_H 17 ;;
  w4 <- pack_H channels ;;
  w5 <- pack_I sample_rate ;;
  w6 <- pack_I (sample_rate * block_align / samples_per_block) ;;
  w7 <- pack_H block_align ;;
  w8 <- pack_H bits_per_sample ;;
  w9 <- pack_H 2 ;;
  w10 <- pack_H samples_per_block ;;
  w11 <- pack_I 4 ;;
  w12 <- pack_I num_samples ;;
  w13 <- pack_I data_size ;;
  Some (RIFF ++ w1 ++ WAVE
        ++ fmt_ ++ w2 ++ w3 ++ w4 ++ w5 ++ w6 ++ w7 ++ w8 ++ w9 ++ w10
        ++ fact ++ w11 ++ w12
        ++ data ++ w13 ++ raw).

(** [range(0, nbytes, 16)] *)
Definition row_starts (nbytes : Z) : list Z :=
  map (fun k => 16 * Z.of_nat k) (seq 0 (Z.to_nat ((nbytes + 15) / 16))).

(** Lines 197-198: the chunks of the array, one per line of the C file. *)
Definition rows (raw : list Z) : list (list Z) :=
  let nbytes := Z.of_nat (List.length raw) in
  map (fun i => Py.slice raw i (i + 16)) (row_starts nbytes).

Definition hex_digit (d : Z) : ascii :=
  if d <? 10 then ascii_of_nat (Z.to_nat (48 + d))
  else ascii_of_nat (Z.to_nat (65 + d - 10)).

(** [f"0x{b:02X}"] for a byte [b], the elements of [raw]. *)
Definition item (b : Z) : string :=
  String "0" (String "x"
    (String (hex_digit (b / 16)) (String (hex_digit (b mod 16)) EmptyString))).

(** [", ".join(items)] *)
Fixpoint join (items : list string) : string :=
  match items with
  | [] => EmptyString
  | [x] => x
  | x :: rest => (x ++ ", " ++ join rest)%string
  end.

Definition newline : string := String (ascii_of_nat 10) EmptyString.

(** Line 199: one line of the array. *)
Definition row_text (chunk : list Z) : string :=
  ("    " ++ join (map item chunk) ++ "," ++ newline)%string.

(** Lines 197-199: the lines of the array, written one after the other. *)
Definition array_text (raw : list Z) : string :=
  fold_right append EmptyString (map row_text (rows raw)).

End Emit.

(** ** Recorded runs of the two loops *)

(** The codes the encoder chooses for the samples of [audio_data], one per
    sample, starting in state [st]. *)
Fixpoint enc_codes (st : Encoder.state) (audio_data : list Z) : option (list Z) :=
  match audio_data with
  | [] => Some []
  | sample :: rest =>
      '(step, code) <- Encoder.quantize st sample ;;
      st' <- Encoder.update st step code ;;
      cs <- enc_codes st' rest ;;
      Some (code :: cs)
  end.

(** The (predictor, step_index) pair after each sample. *)
Fixpoint enc_trace (st : Encoder.state) (audio_data : list Z) : option (list (Z * Z)) :=
  match audio_data with
  | [] => Some []
  | sample :: rest =>
      st' <- Encoder.body st sample ;;
      tr <- enc_trace st' rest ;;
      Some ((Encoder.predictor st', Encoder.step_index st') :: tr)
  end.

(** The (predictor, step_index) pair after each code of one byte. *)
Fixpoint dec_inner_trace (st : Decoder.state) (byte_val : Z) (indices : list Z)
  : option (list (Z * Z)) :=
  match indices with
  | [] => Some []
  | i :: rest =>
      st' <- Decoder.body st byte_val i ;;
      tr <- dec_inner_trace st' byte_val rest ;;
      Some ((Decoder.predictor st', Decoder.step_index st') :: tr)
  end.

(** The (predictor, step_index) pair after each code of each byte. *)
Fixpoint dec_trace (st : Decoder.state) (compressed_data : list Z)
  : option (list (Z * Z)) :=
  match compressed_data with
  | [] => Some []
  | byte_val :: rest =>
      tr <- dec_inner_trace st byte_val Py.range4 ;;
      st' <- Decoder.inner st byte_val Py.range4 ;;
      tr' <- dec_trace st' rest ;;
      Some (tr ++ tr')
  end.

(** The states the encoder loop can be in: those some input leads to. *)
Definition enc_reachable (st : Encoder.state) : Prop :=
  exists audio_data, Encoder.loop Encoder.initial audio_data = Some st.

(** The decoder state after all of [compressed_data] and the first [k]
    bit pairs of one more byte. *)
Definition dec_after (compressed_data : list Z) (byte_val : Z) (k : nat)
  : option Decoder.state :=
  st <- Decoder.loop Decoder.initial compressed_data ;;
  Decoder.inner st byte_val (firstn k Py.range4).

(** The bit pair [i] of a byte, counted from the most significant pair. *)
Definition slot (b i : Z) : Z := Z.land (Z.shiftr b (6 - i * 2)) 3.

(** The codes of a byte sequence in stream order. *)
Definition unpack (bs : list Z) : list Z :=
  flat_map (fun b => map (slot b) Py.range4) bs.

(** ** The transition function of section 4.1 of the specification

    Written from the specification's words ([step(state, code)]), to be
    compared with the updates the two loops carry out. *)

Definition clamp (lo hi x : Z) : Z :=
  if x <? lo then lo else if x >? hi then hi else x.

Definition spec_delta (code step : Z) : Z :=
  match code with
  | 0 => - step
  | 1 => step
  | 2 => -2 * step
  | _ => 2 * step
  end.

Definition spec_step (s : Z * Z) (code : Z) : Z * Z :=
  let step := nth (Z.to_nat (snd s)) Encoder.step_table 0 in
  (clamp 0 255 (fst s + spec_delta code step),
   clamp 0 15 (snd s + nth (Z.to_nat code) Encoder.index_table 0)).

(** The states a code sequence drives the machine through. *)
Fixpoint spec_run (s : Z * Z) (codes : list Z) : list (Z * Z) :=
  match codes with
  | [] => []
  | c :: rest => let s' := spec_step s c in s' :: spec_run s' rest
  end.

Definition spec_final (s : Z * Z) (codes : list Z) : Z * Z :=
  fold_left spec_step codes s.

Definition spec_initial : Z * Z := (128, 0).

(** ** The decoder contract of section 4.3 of the specification *)

(** [decode(bytes, sample_count)], written from the specification's words:
    the decoder of the source, which takes no count, cut to the first
    [sample_count] samples. *)
Definition spec_decode (compressed_data : list Z) (sample_count : nat)
  : option (list Z) :=
  samples <- Decoder.decode_2bit_adpcm compressed_data ;;
  Some (firstn sample_count samples).

Definition roundtrip (audio_data : list Z) : option (list Z) :=
  compressed <- Encoder.encode_2bit_adpcm audio_data ;;
  spec_decode compressed (length audio_data).

(** The number of zero codes that fill the last byte of [n] samples. *)
Definition padding (n : nat) : nat := ((4 - n mod 4) mod 4)%nat.

(** ** Ranges *)

Definition is_code (c : Z) : Prop := 0 <= c <= 3.

Definition is_sample (s : Z) : Prop := 0 <= s <= 255.

Definition in_range (s : Z * Z) : Prop :=
  0 <= fst s <= 255 /\ 0 <= snd s <= 15.

Definition enc_view (st : Encoder.state) : Z * Z :=
  (Encoder.predictor st, Encoder.step_index st).

Definition dec_view (st : Decoder.state) : Z * Z :=
  (Decoder.predictor st, Decoder.step_index st).

(** The codes packed so far: the complete bytes and the pairs already
    written into the current byte. *)
Definition emitted (st : Encoder.state) : list Z :=
  unpack (Encoder.encoded st)
  ++ firstn (Z.to_nat (Encoder.sample_in_byte st))
       (map (slot (Encoder.current_byte st)) Py.range4).

Record enc_inv (st : Encoder.state) : Prop := {
  inv_view : in_range (enc_view st);
  inv_count : 0 <= Encoder.sample_in_byte st <= 3;
  inv_current : 0 <= Encoder.current_byte st < 256;
  inv_encoded : Forall (fun b => 0 <= b < 256) (Encoder.encoded st);
  inv_unused : forall j, Encoder.sample_in_byte st <= j <= 3 ->
               slot (Encoder.current_byte st) j = 0
}.

Record dec_inv (st : Decoder.state) : Prop := {
  dinv_view : in_range (dec_view st);
  dinv_decoded : Forall (fun b => 0 <= b < 256) (Decoder.decoded st)
}.

(** The states the decoder loops can be in. *)
Definition dec_reachable (st : Decoder.state) : Prop :=
  exists compressed_data byte_val k,
    dec_after compressed_data byte_val k = Some st.

(** ** Predicates and measures the theorems below are stated with *)

(** The number a sequence of 7-bit groups stands for, most significant
    group first. *)
Definition vlq_value (groups : list Z) (start : Z) : Z :=
  fold_left (fun v b => v * 128 + b mod 128) groups start.

Definition continues (data : list Z) (i : Z) : Prop :=
  Z.land (nth (Z.to_nat i) data 0) 0x80 <> 0.

(** What the parser guarantees of an event it records. *)
Definition event_shaped (ev : Midi.MidiEvent) : Prop :=
  match Midi.type ev with
  | Midi.note_on =>
      exists ch n v,
        Midi.channel ev = Some ch /\ 0 <= ch <= 15 /\
        Midi.note ev = Some n /\ Midi.velocity ev = Some v /\ v <> 0
  | Midi.note_off =>
      exists ch n v,
        Midi.channel ev = Some ch /\ 0 <= ch <= 15 /\
        Midi.note ev = Some n /\ Midi.velocity ev = Some v
  | Midi.meta =>
      exists mt,
        Midi.meta_type ev = Some mt /\
        Midi.channel ev = None /\ Midi.note ev = None
  end.

Record cursor_inv (c : Midi.cursor) : Prop := {
  ci_off : 0 <= Midi.off c;
  ci_ticks : 0 <= Midi.ticks c;
  ci_sorted : StronglySorted Z.le (map Midi.abs_ticks (Midi.events (Midi.t c)));
  ci_upper : Forall (fun e => 0 <= Midi.abs_ticks e <= Midi.ticks c)
               (Midi.events (Midi.t c));
  ci_shape : Forall event_shaped (Midi.events (Midi.t c))
}.

Definition track_ok (tr : Midi.Track) : Prop :=
  StronglySorted Z.le (map Midi.abs_ticks (Midi.events tr)) /\
  Forall event_shaped (Midi.events tr).

Definition key_le {A : Type} (a b : Z * A) : Prop := fst a <= fst b.

Definition interval_ok (n : Z * (Z * option Z)) : Prop := fst n <= fst (snd n).

(** The number four bytes stand for, least significant byte first. *)
Definition le_value (bs : list Z) : Z :=
  fold_right (fun b acc => b + 256 * acc) 0 bs.

(** A reader of the text of a C array, to state what the text holds. *)

Module ArrayReader.

Import Ascii String.

(** The value of a hexadecimal digit character. *)
Definition digit_value (c : ascii) : option Z :=
  let n := Z.of_nat (nat_of_ascii c) in
  if (48 <=? n) && (n <=? 57) then Some (n - 48)
  else if (65 <=? n) && (n <=? 70) then Some (n - 55)
  else None.

Definition is_char (c : ascii) (code : nat) : bool :=
  Nat.eqb (nat_of_ascii c) code.

(** The numbers written as [0x] and two hexadecimal digits in a text, in
    the order they appear; every other character is skipped. *)
Fixpoint read_items (s : string) : list Z :=
  match s with
  | EmptyString => []
  | String c rest =>
      match rest with
      | String x (String h (String l rest')) =>
          if is_char c 48 && is_char x 120 then
            match digit_value h, digit_value l with
            | Some hv, Some lv => hv * 16 + lv :: read_items rest'
            | _, _ => read_items rest
            end
          else read_items rest
      | _ => read_items rest
      end
  end.

End ArrayReader.

(** ** Elementary facts *)

Lemma small_cases (x : Z) :
  0 <= x <= 3 -> x = 0 \/ x = 1 \/ x = 2 \/ x = 3.
Proof. lia. Qed.

Lemma index_cases (i : Z) :
  0 <= i <= 15 ->
  i = 0 \/ i = 1 \/ i = 2 \/ i = 3 \/ i = 4 \/ i = 5 \/ i = 6 \/ i = 7 \/
  i = 8 \/ i = 9 \/ i = 10 \/ i = 11 \/ i = 12 \/ i = 13 \/ i = 14 \/ i = 15.
Proof. lia. Qed.

Ltac split_small H :=
  let H' := fresh in
  pose proof (small_cases _ H) as H';
  destruct H' as [-> | [-> | [-> | ->]]].

Ltac split_index H :=
  let H' := fresh in
  pose proof (index_cases _ H) as H';
  repeat (destruct H' as [-> | H']); [.. | subst].

Lemma step_lookup (i : Z) :
  0 <= i <= 15 ->
  exists step,
    Py.getitem Encoder.step_table i = Some step /\
    nth (Z.to_nat i) Encoder.step_table 0 = step /\
    2 <= step <= 80.
Proof.
  intros H. split_index H; eexists; (split; [reflexivity | split; [reflexivity | lia]]).
Qed.

Lemma index_lookup (code : Z) :
  is_code code ->
  exists adj,
    Py.getitem Encoder.index_table code = Some adj /\
    nth (Z.to_nat code) Encoder.index_table 0 = adj /\
    (adj = -1 \/ adj = 2).
Proof.
  intros H. split_small H; eexists; (split; [reflexivity | split; [reflexivity | lia]]).
Qed.

Lemma choose_code_range (diff step : Z) : is_code (Encoder.choose_code diff step).
Proof.
  unfold Encoder.choose_code, is_code.
  repeat match goal with |- context [?a <? ?b] => destruct (a <? b) end; lia.
Qed.

Lemma clamp_range (lo hi x : Z) : lo <= hi -> lo <= clamp lo hi x <= hi.
Proof.
  intros H. unfold clamp.
  destruct (Z.ltb_spec x lo); [lia |].
  destruct (Z.gtb_spec x hi); lia.
Qed.

Lemma spec_step_range (s : Z * Z) (code : Z) : in_range (spec_step s code).
Proof.
  unfold in_range, spec_step; simpl. split; apply clamp_range; lia.
Qed.

Lemma slot_range (b i : Z) : is_code (slot b i).
Proof.
  unfold slot, is_code.
  pose proof (Z.land_ones (Z.shiftr b (6 - i * 2)) 2) as H.
  change (Z.ones 2) with 3 in H. rewrite H by lia.
  pose proof (Z.mod_pos_bound (Z.shiftr b (6 - i * 2)) (2 ^ 2)). lia.
Qed.

Lemma slot_lor (a b i : Z) : slot (Z.lor a b) i = Z.lor (slot a i) (slot b i).
Proof.
  unfold slot. rewrite Z.shiftr_lor, Z.land_lor_distr_l. reflexivity.
Qed.

Lemma slot_shifted (code k j : Z) :
  is_code code -> 0 <= k <= 3 -> 0 <= j <= 3 ->
  slot (Z.shiftl code (6 - k * 2)) j = if j =? k then code else 0.
Proof.
  intros Hc Hk Hj. split_small Hc; split_small Hk; split_small Hj; reflexivity.
Qed.

Lemma slot_zero (j : Z) : slot 0 j = 0.
Proof. unfold slot. rewrite Z.shiftr_0_l. reflexivity. Qed.

Lemma byte_lor (a b : Z) :
  0 <= a < 256 -> 0 <= b < 256 -> 0 <= Z.lor a b < 256.
Proof.
  intros Ha Hb.
  assert (Hd : forall x, 0 <= x < 256 <-> Z.shiftr x 8 = 0).
  { intros x. rewrite Z.shiftr_div_pow2 by lia. change (2 ^ 8) with 256.
    rewrite Z.div_small_iff by lia. lia. }
  apply Hd. rewrite Z.shiftr_lor.
  apply Hd in Ha. apply Hd in Hb. rewrite Ha, Hb. reflexivity.
Qed.

Lemma shifted_byte (code k : Z) :
  is_code code -> 0 <= k <= 3 -> 0 <= Z.shiftl code (6 - k * 2) < 256.
Proof.
  intros Hc Hk. split_small Hc; split_small Hk; simpl; lia.
Qed.

Lemma extract_slot (b i : Z) :
  0 <= i <= 3 -> Decoder.extract b i = Some (slot b i).
Proof.
  intros H. unfold Decoder.extract, Py.rshift.
  destruct (Z.ltb_spec (6 - i * 2) 0); [lia | reflexivity].
Qed.

Lemma spec_delta_cases (code step : Z) :
  (if code =? 0 then - step
   else if code =? 1 then step
   else if code =? 2 then - step * 2
   else step * 2) = spec_delta code step.
Proof.
  destruct (Z.eqb_spec code 0) as [-> | H0]; [reflexivity |].
  destruct (Z.eqb_spec code 1) as [-> | H1]; [reflexivity |].
  destruct (Z.eqb_spec code 2) as [-> | H2]; [unfold spec_delta; lia |].
  unfold spec_delta.
  destruct code as [| [ [] | [] | ] | ]; try lia.
Qed.

(** ** One update of either loop is one step of the machine *)

Lemma packed_slot (cb code k j : Z) :
  (forall j', k <= j' <= 3 -> slot cb j' = 0) ->
  is_code code -> 0 <= k <= 3 -> 0 <= j <= 3 ->
  slot (Z.lor cb (Z.shiftl code (6 - k * 2))) j =
    if j <? k then slot cb j else if j =? k then code else 0.
Proof.
  intros Hun Hc Hk Hj.
  rewrite slot_lor, slot_shifted by assumption.
  destruct (Z.ltb_spec j k) as [Hlt | Hge].
  - destruct (Z.eqb_spec j k); [lia | apply Z.lor_0_r].
  - rewrite Hun by lia. apply Z.lor_0_l.
Qed.

Lemma enc_update_spec (st : Encoder.state) (step code : Z) :
  enc_inv st -> is_code code ->
  Py.getitem Encoder.step_table (Encoder.step_index st) = Some step ->
  exists st',
    Encoder.update st step code = Some st' /\
    enc_view st' = spec_step (enc_view st) code /\
    enc_inv st' /\
    emitted st' = emitted st ++ [code].
Proof.
  destruct st as [p i enc cb k].
  intros [Hv Hk Hcb Henc Hun] Hc Hs; simpl in *.
  destruct Hv as [Hp Hi]; simpl in *.
  destruct (step_lookup i Hi) as (step' & Hs' & Hnth & Hstep).
  rewrite Hs in Hs'. injection Hs' as <-.
  destruct (index_lookup code Hc) as (adj & Hadj & Hnadj & Hadj').
  assert (Hview : forall enc' cb' k',
    enc_view (Encoder.mkState
      (if p + spec_delta code step <? 0 then 0
       else if p + spec_delta code step >? 255 then 255
       else p + spec_delta code step)
      (if i + adj <? 0 then 0 else if i + adj >? 15 then 15 else i + adj)
      enc' cb' k') = spec_step (p, i) code).
  { intros. unfold enc_view, spec_step, clamp.
    cbn [fst snd Encoder.predictor Encoder.step_index].
    rewrite Hnth, Hnadj. reflexivity. }
  pose proof (shifted_byte code k Hc Hk) as Hsh.
  pose proof (byte_lor _ _ Hcb Hsh) as Hcb'.
  pose proof (fun j => packed_slot cb code k j Hun Hc Hk) as Hslot.
  unfold Encoder.update, Py.lshift.
  cbn [Encoder.predictor Encoder.step_index Encoder.encoded
       Encoder.current_byte Encoder.sample_in_byte].
  destruct (Z.ltb_spec (6 - k * 2) 0) as [Hneg | _]; [lia |].
  cbn [bind]. rewrite Hadj. cbn [bind]. rewrite spec_delta_cases.
  remember (Z.lor cb (Z.shiftl code (6 - k * 2))) as cb' eqn:Ecb.
  clear Ecb Hsh.
  destruct (Z.geb_spec (k + 1) 4) as [Hfull | Hpart].
  - assert (k = 3) by lia. subst k.
    eexists; split; [reflexivity |].
    split; [apply Hview |].
    split.
    + constructor; simpl.
      * rewrite Hview. apply spec_step_range.
      * lia.
      * lia.
      * apply Forall_app; split; [assumption | constructor; [assumption | constructor]].
      * intros j _. apply slot_zero.
    + unfold emitted, unpack; simpl.
      rewrite flat_map_app; simpl.
      rewrite !Hslot by lia. simpl.
      rewrite app_nil_r, <- app_assoc. reflexivity.
  - eexists; split; [reflexivity |].
    split; [apply Hview |].
    split.
    + constructor; simpl.
      * rewrite Hview. apply spec_step_range.
      * lia.
      * assumption.
      * assumption.
      * intros j Hj. rewrite Hslot by lia.
        destruct (Z.ltb_spec j k); [lia |].
        destruct (Z.eqb_spec j k); [lia | reflexivity].
    + unfold emitted; simpl. rewrite <- app_assoc. f_equal.
      assert (k = 0 \/ k = 1 \/ k = 2) as [-> | [-> | ->]] by lia;
        simpl; rewrite !Hslot by lia; reflexivity.
Qed.

Lemma dec_update_spec (st : Decoder.state) (code : Z) :
  dec_inv st -> is_code code ->
  exists st',
    Decoder.update st code = Some st' /\
    dec_view st' = spec_step (dec_view st) code /\
    Decoder.decoded st' = Decoder.decoded st ++ [fst (spec_step (dec_view st) code)] /\
    dec_inv st'.
Proof.
  destruct st as [p i dec].
  intros [[Hp Hi] Hdec] Hc. unfold dec_view in *.
  cbn [fst snd Decoder.predictor Decoder.step_index Decoder.decoded] in *.
  destruct (step_lookup i Hi) as (step & Hs & Hnth & Hstep).
  destruct (index_lookup code Hc) as (adj & Hadj & Hnadj & Hadj').
  unfold Decoder.update.
  cbn [Decoder.predictor Decoder.step_index Decoder.decoded].
  change Decoder.step_table with Encoder.step_table.
  change Decoder.index_table with Encoder.index_table.
  rewrite Hs. cbn [bind]. rewrite Hadj. cbn [bind]. rewrite spec_delta_cases.
  assert (Hview : spec_step (p, i) code =
    (if p + spec_delta code step <? 0 then 0
     else if p + spec_delta code step >? 255 then 255
     else p + spec_delta code step,
     if i + adj <? 0 then 0 else if i + adj >? 15 then 15 else i + adj)).
  { unfold spec_step, clamp. cbn [fst snd]. rewrite Hnth, Hnadj. reflexivity. }
  eexists; split; [reflexivity |].
  cbn [Decoder.predictor Decoder.step_index Decoder.decoded].
  rewrite Hview. cbn [fst].
  split; [reflexivity |]. split; [reflexivity |].
  pose proof (spec_step_range (p, i) code) as Hr. rewrite Hview in Hr.
  constructor; simpl.
  - exact Hr.
  - apply Forall_app; split; [assumption |].
    constructor; [| constructor]. destruct Hr as [Hr _]; simpl in Hr. lia.
Qed.

(** ** Runs of the machine *)

Lemma spec_run_length (s : Z * Z) (codes : list Z) :
  length (spec_run s codes) = length codes.
Proof.
  revert s; induction codes as [| c codes IH]; intros s; simpl; [| rewrite IH]; reflexivity.
Qed.

Lemma spec_run_app (s : Z * Z) (xs ys : list Z) :
  spec_run s (xs ++ ys) = spec_run s xs ++ spec_run (spec_final s xs) ys.
Proof.
  revert s; induction xs as [| c xs IH]; intros s; simpl; [| rewrite IH]; reflexivity.
Qed.

Lemma spec_final_app (s : Z * Z) (xs ys : list Z) :
  spec_final s (xs ++ ys) = spec_final (spec_final s xs) ys.
Proof. apply fold_left_app. Qed.

Lemma firstn_app_exact {A : Type} (n : nat) (xs ys : list A) :
  length xs = n -> firstn n (xs ++ ys) = xs.
Proof.
  intros <-. rewrite firstn_app, firstn_all, Nat.sub_diag, firstn_O.
  apply app_nil_r.
Qed.

Lemma unpack_length (bs : list Z) : length (unpack bs) = (4 * length bs)%nat.
Proof.
  induction bs as [| b bs IH]; [reflexivity |].
  change (unpack (b :: bs)) with (map (slot b) Py.range4 ++ unpack bs).
  rewrite length_app, IH, length_map. simpl length. lia.
Qed.

Lemma unpack_app (xs ys : list Z) : unpack (xs ++ ys) = unpack xs ++ unpack ys.
Proof. apply flat_map_app. Qed.

Lemma bytes_ok (l : list Z) :
  Forall (fun b => 0 <= b < 256) l -> Py.bytes l = Some l.
Proof.
  intros H. unfold Py.bytes.
  replace (forallb Py.is_byte l) with true; [reflexivity |].
  symmetry. apply forallb_forall. rewrite Forall_forall in H.
  intros b Hb. specialize (H b Hb). unfold Py.is_byte.
  apply andb_true_iff; split; [apply Z.leb_le | apply Z.ltb_lt]; lia.
Qed.

(** ** The encoder loop *)

Lemma enc_initial_inv : enc_inv Encoder.initial.
Proof.
  constructor; simpl; try lia.
  - unfold in_range; simpl; lia.
  - constructor.
  - intros j _. apply slot_zero.
Qed.

Lemma enc_body_spec (st : Encoder.state) (sample : Z) :
  enc_inv st ->
  exists step code st',
    Py.getitem Encoder.step_table (Encoder.step_index st) = Some step /\
    2 <= step <= 80 /\
    code = Encoder.choose_code (sample - Encoder.predictor st) step /\
    Encoder.quantize st sample = Some (step, code) /\
    Encoder.update st step code = Some st' /\
    Encoder.body st sample = Some st' /\
    enc_view st' = spec_step (enc_view st) code /\
    enc_inv st' /\
    emitted st' = emitted st ++ [code].
Proof.
  intros Hinv.
  destruct (step_lookup (Encoder.step_index st)) as (step & Hs & _ & Hstep).
  { apply Hinv. }
  set (code := Encoder.choose_code (sample - Encoder.predictor st) step).
  destruct (enc_update_spec st step code Hinv (choose_code_range _ _) Hs)
    as (st' & Hup & Hview & Hinv' & Hem).
  assert (Hq : Encoder.quantize st sample = Some (step, code)).
  { unfold Encoder.quantize. rewrite Hs. reflexivity. }
  exists step, code, st'.
  repeat apply conj; try assumption; try lia; try reflexivity.
  unfold Encoder.body. rewrite Hq. exact Hup.
Qed.

Lemma enc_loop_spec (audio_data : list Z) (st : Encoder.state) :
  enc_inv st ->
  exists cs st',
    enc_codes st audio_data = Some cs /\
    Encoder.loop st audio_data = Some st' /\
    enc_trace st audio_data = Some (spec_run (enc_view st) cs) /\
    Forall is_code cs /\
    length cs = length audio_data /\
    enc_view st' = spec_final (enc_view st) cs /\
    enc_inv st' /\
    emitted st' = emitted st ++ cs.
Proof.
  revert st; induction audio_data as [| sample rest IH]; intros st Hinv.
  - exists [], st. simpl. rewrite app_nil_r. repeat apply conj; auto.
  - destruct (enc_body_spec st sample Hinv)
      as (step & code & st1 & _ & _ & Hcode & Hq & Hup & Hbody & Hview & Hinv1 & Hem).
    destruct (IH st1 Hinv1) as (cs & st' & Hcs & Hloop & Htr & Hall & Hlen & Hfin & Hinv' & Hem').
    exists (code :: cs), st'. simpl.
    rewrite Hq; simpl. rewrite Hup; simpl. rewrite Hcs; simpl.
    rewrite Hbody; simpl. rewrite Hloop, Htr; simpl.
    rewrite <- Hview.
    repeat apply conj; auto.
    + constructor; [rewrite Hcode; apply choose_code_range | assumption].
    + rewrite Hem', Hem, <- app_assoc. reflexivity.
Qed.

Lemma emitted_length (st : Encoder.state) :
  enc_inv st ->
  Z.of_nat (length (emitted st)) =
    4 * Z.of_nat (length (Encoder.encoded st)) + Encoder.sample_in_byte st.
Proof.
  intros Hinv. destruct Hinv as [_ Hk _ _ _].
  unfold emitted. rewrite length_app, unpack_length, length_firstn, length_map.
  simpl length. lia.
Qed.

Lemma enc_finish_spec (st : Encoder.state) :
  enc_inv st ->
  exists out,
    Encoder.finish st = Some out /\
    Forall (fun b => 0 <= b < 256) out /\
    unpack out = emitted st ++ repeat 0 (padding (length (emitted st))).
Proof.
  intros Hinv. pose proof (emitted_length st Hinv) as Hlen.
  destruct Hinv as [_ Hk Hcb Henc Hun].
  unfold Encoder.finish.
  assert (Hpad : padding (length (emitted st)) =
                 Z.to_nat ((4 - Encoder.sample_in_byte st) mod 4)).
  { unfold padding. zify. Z.to_euclidean_division_equations. lia. }
  rewrite Hpad. clear Hpad Hlen.
  destruct (Z.gtb_spec (Encoder.sample_in_byte st) 0) as [Hpos | Hzero].
  - exists (Encoder.encoded st ++ [Encoder.current_byte st]).
    assert (Hb : Forall (fun b => 0 <= b < 256)
                   (Encoder.encoded st ++ [Encoder.current_byte st])).
    { apply Forall_app; split; [assumption | constructor; [assumption | constructor]]. }
    split; [apply bytes_ok, Hb |]. split; [exact Hb |].
    unfold emitted. rewrite unpack_app, <- app_assoc. f_equal.
    unfold unpack; simpl.
    assert (Encoder.sample_in_byte st = 1 \/ Encoder.sample_in_byte st = 2 \/
            Encoder.sample_in_byte st = 3) as [E | [E | E]] by lia;
      rewrite E in *; simpl;
      rewrite ?(Hun 1), ?(Hun 2), ?(Hun 3) by lia; reflexivity.
  - assert (E : Encoder.sample_in_byte st = 0) by lia.
    exists (Encoder.encoded st).
    split; [apply bytes_ok, Henc |]. split; [exact Henc |].
    unfold emitted. rewrite E. simpl. rewrite !app_nil_r. reflexivity.
Qed.

Lemma encode_spec (audio_data : list Z) :
  exists cs out,
    enc_codes Encoder.initial audio_data = Some cs /\
    Encoder.encode_2bit_adpcm audio_data = Some out /\
    enc_trace Encoder.initial audio_data = Some (spec_run spec_initial cs) /\
    Forall is_code cs /\
    length cs = length audio_data /\
    Forall (fun b => 0 <= b < 256) out /\
    unpack out = cs ++ repeat 0 (padding (length audio_data)).
Proof.
  destruct (enc_loop_spec audio_data Encoder.initial enc_initial_inv)
    as (cs & st & Hcs & Hloop & Htr & Hall & Hlen & _ & Hinv & Hem).
  destruct (enc_finish_spec st Hinv) as (out & Hfin & Hbytes & Hun).
  change (emitted Encoder.initial) with (@nil Z) in Hem. simpl in Hem.
  rewrite Hem, Hlen in Hun.
  exists cs, out. unfold Encoder.encode_2bit_adpcm. rewrite Hloop; simpl.
  repeat apply conj; assumption.
Qed.

(** ** The decoder loops *)

Lemma dec_initial_inv : dec_inv Decoder.initial.
Proof.
  constructor; simpl; [unfold in_range; simpl; lia | constructor].
Qed.

Lemma dec_inner_spec (byte_val : Z) (indices : list Z) (st : Decoder.state) :
  dec_inv st ->
  Forall (fun i => 0 <= i <= 3) indices ->
  exists st',
    Decoder.inner st byte_val indices = Some st' /\
    dec_inner_trace st byte_val indices =
      Some (spec_run (dec_view st) (map (slot byte_val) indices)) /\
    dec_view st' = spec_final (dec_view st) (map (slot byte_val) indices) /\
    Decoder.decoded st' =
      Decoder.decoded st
      ++ map fst (spec_run (dec_view st) (map (slot byte_val) indices)) /\
    dec_inv st'.
Proof.
  revert st; induction indices as [| i rest IH]; intros st Hinv Hall.
  - exists st. simpl. rewrite app_nil_r. repeat apply conj; auto.
  - inversion Hall as [| ? ? Hi Hrest]; subst.
    destruct (dec_update_spec st (slot byte_val i) Hinv (slot_range _ _))
      as (st1 & Hup & Hview & Hdec & Hinv1).
    destruct (IH st1 Hinv1 Hrest) as (st' & Hin & Htr & Hfin & Hdec' & Hinv').
    assert (Hbody : Decoder.body st byte_val i = Some st1).
    { unfold Decoder.body. rewrite extract_slot by assumption. exact Hup. }
    exists st'. simpl. rewrite Hbody; simpl. rewrite Hin, Htr; simpl.
    rewrite <- Hview.
    repeat apply conj; auto.
    rewrite Hdec', Hdec, <- app_assoc, Hview. reflexivity.
Qed.

Lemma range4_slots : Forall (fun i => 0 <= i <= 3) Py.range4.
Proof. repeat constructor; lia. Qed.

Lemma dec_loop_spec (compressed_data : list Z) (st : Decoder.state) :
  dec_inv st ->
  exists st',
    Decoder.loop st compressed_data = Some st' /\
    dec_trace st compressed_data =
      Some (spec_run (dec_view st) (unpack compressed_data)) /\
    dec_view st' = spec_final (dec_view st) (unpack compressed_data) /\
    Decoder.decoded st' =
      Decoder.decoded st
      ++ map fst (spec_run (dec_view st) (unpack compressed_data)) /\
    dec_inv st'.
Proof.
  revert st; induction compressed_data as [| b rest IH]; intros st Hinv.
  - exists st. simpl. rewrite app_nil_r. repeat apply conj; auto.
  - destruct (dec_inner_spec b Py.range4 st Hinv range4_slots)
      as (st1 & Hin & Htr & Hfin & Hdec & Hinv1).
    destruct (IH st1 Hinv1) as (st' & Hloop & Htr' & Hfin' & Hdec' & Hinv').
    exists st'.
    change (unpack (b :: rest)) with (map (slot b) Py.range4 ++ unpack rest).
    rewrite spec_run_app, spec_final_app, map_app, <- Hfin.
    cbn [Decoder.loop dec_trace].
    rewrite Hin, Htr; cbn [bind]. rewrite Hloop, Htr'; cbn [bind].
    repeat apply conj; auto.
    rewrite Hdec', Hdec, <- app_assoc. reflexivity.
Qed.

Lemma decode_spec (compressed_data : list Z) :
  Decoder.decode_2bit_adpcm compressed_data =
    Some (map fst (spec_run spec_initial (unpack compressed_data))) /\
  dec_trace Decoder.initial compressed_data =
    Some (spec_run spec_initial (unpack compressed_data)).
Proof.
  destruct (dec_loop_spec compressed_data Decoder.initial dec_initial_inv)
    as (st & Hloop & Htr & _ & Hdec & Hinv).
  split; [| exact Htr].
  unfold Decoder.decode_2bit_adpcm. rewrite Hloop; cbn [bind].
  change (dec_view Decoder.initial) with spec_initial in Hdec.
  change (Decoder.decoded Decoder.initial) with (@nil Z) in Hdec.
  rewrite app_nil_l in Hdec.
  rewrite <- Hdec. apply bytes_ok, Hinv.
Qed.

(** ** Decoding what the encoder wrote *)

Lemma decode_encoded (audio_data : list Z) :
  exists cs out,
    enc_codes Encoder.initial audio_data = Some cs /\
    length cs = length audio_data /\
    Encoder.encode_2bit_adpcm audio_data = Some out /\
    unpack out = cs ++ repeat 0 (padding (length audio_data)) /\
    enc_trace Encoder.initial audio_data = Some (spec_run spec_initial cs) /\
    dec_trace Decoder.initial out =
      Some (spec_run spec_initial cs
            ++ spec_run (spec_final spec_initial cs)
                 (repeat 0 (padding (length audio_data)))) /\
    Decoder.decode_2bit_adpcm out =
      Some (map fst (spec_run spec_initial cs)
            ++ map fst (spec_run (spec_final spec_initial cs)
                 (repeat 0 (padding (length audio_data))))).
Proof.
  destruct (encode_spec audio_data)
    as (cs & out & Hcs & Henc & Htr & _ & Hlen & _ & Hun).
  destruct (decode_spec out) as [Hdec Hdtr].
  rewrite Hun, spec_run_app in Hdec, Hdtr. rewrite map_app in Hdec.
  exists cs, out. repeat apply conj; assumption.
Qed.

(** C1 (as stated, refuted): the round trip of the single silent sample 128
    gives 130, not 128. *)
Lemma C1_roundtrip_not_exact :
  Forall is_sample [128] /\
  roundtrip [128] = Some [130] /\
  roundtrip [128] <> Some [128].
Proof.
  split; [repeat constructor; unfold is_sample; lia |].
  split; [reflexivity | discriminate].
Qed.

(** C1 (amended): for every sample sequence, encoding succeeds, and decoding
    the result and keeping the first [len(S)] samples gives exactly the
    encoder's own reconstruction of S: the predictor value it computed after
    each sample.  The empty sequence gives the empty sequence. *)
Theorem C1_roundtrip_reconstruction (audio_data : list Z) :
  exists compressed trace,
    Encoder.encode_2bit_adpcm audio_data = Some compressed /\
    enc_trace Encoder.initial audio_data = Some trace /\
    spec_decode compressed (length audio_data) = Some (map fst trace) /\
    roundtrip audio_data = Some (map fst trace) /\
    length (map fst trace) = length audio_data.
Proof.
  destruct (decode_encoded audio_data)
    as (cs & out & _ & Hlen & Henc & _ & Htr & _ & Hdec).
  assert (Hcut : spec_decode out (length audio_data)
                 = Some (map fst (spec_run spec_initial cs))).
  { unfold spec_decode. rewrite Hdec; cbn [bind]. f_equal.
    apply firstn_app_exact. rewrite length_map, spec_run_length. exact Hlen. }
  exists out, (spec_run spec_initial cs).
  repeat apply conj; try assumption.
  - unfold roundtrip. rewrite Henc; cbn [bind]. exact Hcut.
  - rewrite length_map, spec_run_length. exact Hlen.
Qed.

(** C2: the decoder run on the encoder's output goes through the encoder's
    (predictor, step_index) trajectory, its first [len(S)] samples are the
    encoder's predictor values, and it makes [padding] further steps for the
    zero codes that fill the last byte.  Both trajectories are the run of the
    one transition function [spec_step] from the same initial state over the
    codes: for any byte sequence the decoder follows [spec_run] on the codes
    it unpacks, and the encoder follows [spec_run] on the codes it chooses,
    so the two can only differ where the codes differ. *)
Theorem C2_same_trajectory (audio_data compressed_data : list Z) :
  (exists cs out enc_tr dec_tr samples,
     enc_codes Encoder.initial audio_data = Some cs /\
     Encoder.encode_2bit_adpcm audio_data = Some out /\
     enc_trace Encoder.initial audio_data = Some enc_tr /\
     dec_trace Decoder.initial out = Some dec_tr /\
     Decoder.decode_2bit_adpcm out = Some samples /\
     firstn (length audio_data) dec_tr = enc_tr /\
     firstn (length audio_data) samples = map fst enc_tr /\
     length dec_tr = (length audio_data + padding (length audio_data))%nat /\
     enc_tr = spec_run spec_initial cs) /\
  dec_trace Decoder.initial compressed_data =
    Some (spec_run spec_initial (unpack compressed_data)) /\
  Decoder.decode_2bit_adpcm compressed_data =
    Some (map fst (spec_run spec_initial (unpack compressed_data))) /\
  enc_view Encoder.initial = spec_initial /\
  dec_view Decoder.initial = spec_initial.
Proof.
  split.
  - destruct (decode_encoded audio_data)
      as (cs & out & Hcs & Hlen & Henc & _ & Htr & Hdtr & Hdec).
    do 5 eexists.
    split; [exact Hcs |]. split; [exact Henc |]. split; [exact Htr |].
    split; [exact Hdtr |]. split; [exact Hdec |].
    split; [apply firstn_app_exact; rewrite spec_run_length; exact Hlen |].
    split; [apply firstn_app_exact;
            rewrite length_map, spec_run_length; exact Hlen |].
    split; [| reflexivity].
    rewrite length_app, !spec_run_length, repeat_length, Hlen. reflexivity.
  - destruct (decode_spec compressed_data) as [Hdec Hdtr].
    repeat apply conj; [exact Hdtr | exact Hdec | reflexivity | reflexivity].
Qed.

(** C3 (as stated, refuted): the four silent samples are not encoded as the
    byte 0, and the predictor does not stay at 128. *)
Lemma C3_silence_not_zero :
  Encoder.encode_2bit_adpcm [128; 128; 128; 128] <> Some [0] /\
  enc_trace Encoder.initial [128; 128; 128; 128]
    <> Some [(128, 0); (128, 0); (128, 0); (128, 0)].
Proof. split; discriminate. Qed.

(** C3 (amended): the four silent samples [128,128,128,128] are encoded as
    the single byte 0x44, the codes 1, 0, 1, 0; the step index stays 0 and
    the predictor goes 130, 128, 130, 128. *)
Theorem C3_silence_vector :
  Encoder.encode_2bit_adpcm [128; 128; 128; 128] = Some [0x44] /\
  enc_codes Encoder.initial [128; 128; 128; 128] = Some [1; 0; 1; 0] /\
  enc_trace Encoder.initial [128; 128; 128; 128]
    = Some [(130, 0); (128, 0); (130, 0); (128, 0)].
Proof. repeat split. Qed.

(** ** Invariants of the reachable states *)

Lemma enc_reachable_inv (st : Encoder.state) : enc_reachable st -> enc_inv st.
Proof.
  intros [audio_data Hloop].
  destruct (enc_loop_spec audio_data Encoder.initial enc_initial_inv)
    as (cs & st' & _ & Hloop' & _ & _ & _ & _ & Hinv & _).
  rewrite Hloop in Hloop'. injection Hloop' as ->. exact Hinv.
Qed.

Lemma firstn_slots (k : nat) : Forall (fun i => 0 <= i <= 3) (firstn k Py.range4).
Proof.
  pose proof range4_slots as H.
  rewrite <- (firstn_skipn k Py.range4) in H.
  apply Forall_app in H. apply H.
Qed.

(** C4: both loops start from predictor 128 and step index 0; the encoder
    state after any number of samples of any input, and the decoder state
    after any number of bytes and any number of codes of the following byte,
    exist (no lookup fails) and have the predictor in [0,255] and the step
    index in [0,15]. *)
Theorem C4_bounded_state (audio_data compressed_data : list Z) (byte_val : Z) (n k : nat) :
  Encoder.predictor Encoder.initial = 128 /\
  Encoder.step_index Encoder.initial = 0 /\
  Decoder.predictor Decoder.initial = 128 /\
  Decoder.step_index Decoder.initial = 0 /\
  (exists st,
     Encoder.loop Encoder.initial (firstn n audio_data) = Some st /\
     0 <= Encoder.predictor st <= 255 /\
     0 <= Encoder.step_index st <= 15) /\
  (exists st,
     dec_after compressed_data byte_val k = Some st /\
     0 <= Decoder.predictor st <= 255 /\
     0 <= Decoder.step_index st <= 15).
Proof.
  do 4 (split; [reflexivity |]). split.
  - destruct (enc_loop_spec (firstn n audio_data) Encoder.initial enc_initial_inv)
      as (cs & st & _ & Hloop & _ & _ & _ & _ & Hinv & _).
    exists st. split; [exact Hloop |]. apply Hinv.
  - destruct (dec_loop_spec compressed_data Decoder.initial dec_initial_inv)
      as (st0 & Hloop & _ & _ & _ & Hinv0).
    destruct (dec_inner_spec byte_val (firstn k Py.range4) st0 Hinv0 (firstn_slots k))
      as (st & Hin & _ & _ & _ & Hinv).
    exists st. split; [| apply Hinv].
    unfold dec_after. rewrite Hloop. exact Hin.
Qed.

(** C5: in every reachable encoder state the step is found in the table, the
    halving rounds down (which for the positive steps is truncation), and the
    code the loop body goes on with is 2, 0, 1 or 3 exactly in the four
    ranges of [diff = sample - predictor]. *)
Theorem C5_threshold_rule (st : Encoder.state) (sample : Z) :
  enc_reachable st ->
  exists step code,
    Py.getitem Encoder.step_table (Encoder.step_index st) = Some step /\
    Encoder.quantize st sample = Some (step, code) /\
    Encoder.body st sample = Encoder.update st step code /\
    0 < step /\
    step / 2 = Z.quot step 2 /\
    (code = 2 <-> sample - Encoder.predictor st < - step - step / 2) /\
    (code = 0 <-> - step - step / 2 <= sample - Encoder.predictor st < 0) /\
    (code = 1 <-> 0 <= sample - Encoder.predictor st < step + step / 2) /\
    (code = 3 <-> sample - Encoder.predictor st >= step + step / 2).
Proof.
  intros Hreach. pose proof (enc_reachable_inv st Hreach) as Hinv.
  destruct (enc_body_spec st sample Hinv)
    as (step & code & st' & Hs & Hstep & Hcode & Hq & Hup & Hbody & _).
  exists step, code.
  split; [exact Hs |]. split; [exact Hq |].
  split; [rewrite Hbody, Hup; reflexivity |].
  split; [lia |].
  split; [symmetry; apply Z.quot_div_nonneg; lia |].
  assert (Hhalf : 0 <= step / 2) by (apply Z.div_pos; lia).
  rewrite Hcode. unfold Encoder.choose_code.
  destruct (Z.ltb_spec (sample - Encoder.predictor st) (- step - step / 2));
    [repeat split; intros; lia |].
  destruct (Z.ltb_spec (sample - Encoder.predictor st) 0);
    [repeat split; intros; lia |].
  destruct (Z.ltb_spec (sample - Encoder.predictor st) (step + step / 2));
    repeat split; intros; lia.
Qed.

Lemma C5_threshold_rule_witness :
  enc_reachable Encoder.initial /\
  exists step code,
    Py.getitem Encoder.step_table (Encoder.step_index Encoder.initial) = Some step /\
    Encoder.quantize Encoder.initial 125 = Some (step, code) /\
    Encoder.body Encoder.initial 125 = Encoder.update Encoder.initial step code /\
    0 < step /\
    step / 2 = Z.quot step 2 /\
    (code = 2 <-> 125 - Encoder.predictor Encoder.initial < - step - step / 2) /\
    (code = 0 <-> - step - step / 2 <= 125 - Encoder.predictor Encoder.initial < 0) /\
    (code = 1 <-> 0 <= 125 - Encoder.predictor Encoder.initial < step + step / 2) /\
    (code = 3 <-> 125 - Encoder.predictor Encoder.initial >= step + step / 2).
Proof.
  split.
  - exists []. reflexivity.
  - apply (C5_threshold_rule Encoder.initial 125). exists []. reflexivity.
Defined.

(** ** Positions in the packed stream *)

Lemma unpack_nth (bs : list Z) (n : nat) :
  nth_error (unpack bs) n =
    option_map (fun b => slot b (Z.of_nat (n mod 4))) (nth_error bs (n / 4)).
Proof.
  revert n; induction bs as [| b bs IH]; intros n.
  - change (unpack []) with (@nil Z). rewrite !nth_error_nil. reflexivity.
  - destruct n as [| [| [| [| m]]]]; try reflexivity.
    assert (E : nth_error (unpack (b :: bs)) (S (S (S (S m))))
                = nth_error (unpack bs) m) by reflexivity.
    rewrite E, IH.
    replace (S (S (S (S m))) / 4)%nat with (S (m / 4))
      by (zify; Z.to_euclidean_division_equations; lia).
    replace (S (S (S (S m))) mod 4)%nat with (m mod 4)%nat
      by (zify; Z.to_euclidean_division_equations; lia).
    reflexivity.
Qed.

Lemma skipn_app_exact {A : Type} (n : nat) (xs ys : list A) :
  length xs = n -> skipn n (xs ++ ys) = ys.
Proof.
  intros <-. rewrite skipn_app, skipn_all, Nat.sub_diag. reflexivity.
Qed.

Lemma slot_bits (b j : Z) :
  0 <= j <= 3 ->
  Z.testbit (slot b j) 1 = Z.testbit b (7 - 2 * j) /\
  Z.testbit (slot b j) 0 = Z.testbit b (6 - 2 * j).
Proof.
  intros Hj. unfold slot. rewrite !Z.land_spec, !Z.shiftr_spec by lia.
  change (Z.testbit 3 1) with true. change (Z.testbit 3 0) with true.
  rewrite !andb_true_r. split; f_equal; lia.
Qed.

Lemma small_land (x : Z) : 0 <= x <= 3 -> Z.land x 3 = x.
Proof. intros H. split_small H; reflexivity. Qed.

(** C6: the code chosen for sample [n] sits in byte [n / 4] of the output at
    the bit pair [n mod 4] counted from the top, that is at bits
    [7 - 2 (n mod 4)] and [6 - 2 (n mod 4)], and the decoder's extraction
    number [n mod 4] from that byte returns it.  For four samples the top two
    bits of the one output byte are the code of the first sample and the
    bottom two bits the code of the last. *)
Theorem C6_packing_order (audio_data : list Z) (n : nat) (a b c d : Z) :
  ((n < length audio_data)%nat ->
   exists cs out code byte_val,
     enc_codes Encoder.initial audio_data = Some cs /\
     Encoder.encode_2bit_adpcm audio_data = Some out /\
     nth_error cs n = Some code /\
     nth_error out (n / 4) = Some byte_val /\
     Z.land (Z.shiftr byte_val (6 - Z.of_nat (n mod 4) * 2)) 3 = code /\
     Z.testbit byte_val (7 - 2 * Z.of_nat (n mod 4)) = Z.testbit code 1 /\
     Z.testbit byte_val (6 - 2 * Z.of_nat (n mod 4)) = Z.testbit code 0 /\
     Decoder.extract byte_val (Z.of_nat (n mod 4)) = Some code) /\
  (exists ca cb cc cd byte_val,
     enc_codes Encoder.initial [a; b; c; d] = Some [ca; cb; cc; cd] /\
     Encoder.encode_2bit_adpcm [a; b; c; d] = Some [byte_val] /\
     0 <= byte_val < 256 /\
     Z.shiftr byte_val 6 = ca /\
     Z.land byte_val 3 = cd).
Proof.
  split.
  - intros Hn.
    destruct (encode_spec audio_data)
      as (cs & out & Hcs & Henc & _ & _ & Hlen & _ & Hun).
    assert (Hnth : nth_error (unpack out) n = nth_error cs n).
    { rewrite Hun. apply nth_error_app1. lia. }
    destruct (nth_error cs n) as [code |] eqn:Hcode.
    2: { apply nth_error_None in Hcode. lia. }
    rewrite unpack_nth in Hnth.
    destruct (nth_error out (n / 4)) as [byte_val |] eqn:Hbyte; [| discriminate].
    cbn [option_map] in Hnth.
    assert (Hslot : slot byte_val (Z.of_nat (n mod 4)) = code) by congruence.
    assert (Hj : 0 <= Z.of_nat (n mod 4) <= 3)
      by (zify; Z.to_euclidean_division_equations; lia).
    destruct (slot_bits byte_val _ Hj) as [Hb1 Hb0]. rewrite Hslot in Hb1, Hb0.
    exists cs, out, code, byte_val.
    repeat apply conj; auto.
    rewrite extract_slot by exact Hj. rewrite Hslot. reflexivity.
  - destruct (encode_spec [a; b; c; d])
      as (cs & out & Hcs & Henc & _ & _ & Hlen & Hbytes & Hun).
    change (repeat 0 (padding (length [a; b; c; d]))) with (@nil Z) in Hun.
    rewrite app_nil_r in Hun.
    pose proof (unpack_length out) as Hout. rewrite Hun, Hlen in Hout.
    destruct out as [| byte_val [| ? ?]]; simpl in Hout; try lia.
    cbv [unpack flat_map map Py.range4 app] in Hun.
    inversion Hbytes as [| ? ? Hbyte _]; subst.
    exists (slot byte_val 0), (slot byte_val 1), (slot byte_val 2),
           (slot byte_val 3), byte_val.
    repeat apply conj; [exact Hcs | exact Henc | lia | lia | ..].
    + unfold slot. change (6 - 0 * 2) with 6. symmetry. apply small_land.
      rewrite Z.shiftr_div_pow2 by lia. change (2 ^ 6) with 64.
      split; [apply Z.div_pos; lia |].
      assert (byte_val / 64 < 4) by (apply Z.div_lt_upper_bound; lia). lia.
    + unfold slot. change (6 - 3 * 2) with 0. rewrite Z.shiftr_0_r. reflexivity.
Qed.

Lemma C6_packing_order_witness :
  (1 < length [128; 128; 128; 128])%nat /\
  exists cs out code byte_val,
    enc_codes Encoder.initial [128; 128; 128; 128] = Some cs /\
    Encoder.encode_2bit_adpcm [128; 128; 128; 128] = Some out /\
    nth_error cs 1 = Some code /\
    nth_error out (1 / 4) = Some byte_val /\
    Z.land (Z.shiftr byte_val (6 - Z.of_nat (1 mod 4) * 2)) 3 = code /\
    Z.testbit byte_val (7 - 2 * Z.of_nat (1 mod 4)) = Z.testbit code 1 /\
    Z.testbit byte_val (6 - 2 * Z.of_nat (1 mod 4)) = Z.testbit code 0 /\
    Decoder.extract byte_val (Z.of_nat (1 mod 4)) = Some code.
Proof.
  split.
  - simpl. lia.
  - apply (C6_packing_order [128; 128; 128; 128] 1%nat 0 0 0 0). simpl. lia.
Defined.

Lemma encode_length (audio_data out : list Z) :
  Encoder.encode_2bit_adpcm audio_data = Some out ->
  (4 * length out = length audio_data + padding (length audio_data))%nat.
Proof.
  intros Henc.
  destruct (encode_spec audio_data)
    as (cs & out' & _ & Henc' & _ & _ & Hlen & _ & Hun).
  rewrite Henc in Henc'. injection Henc' as <-.
  rewrite <- unpack_length, Hun, length_app, repeat_length, Hlen. reflexivity.
Qed.

(** C7: on every input the encoder returns, and returns [ceil(n / 4)] bytes,
    each in [0,255]; the empty input gives the empty output; and when [n] is
    not a multiple of 4 the last byte has zero in every bit pair from
    position [n mod 4] on. *)
Theorem C7_encoder_total (audio_data : list Z) :
  Encoder.encode_2bit_adpcm [] = Some [] /\
  exists out,
    Encoder.encode_2bit_adpcm audio_data = Some out /\
    length out = ((length audio_data + 3) / 4)%nat /\
    Forall (fun b => 0 <= b < 256) out /\
    ((length audio_data mod 4 <> 0)%nat ->
     exists last_byte,
       nth_error out (length out - 1) = Some last_byte /\
       forall j : nat,
         (length audio_data mod 4 <= j < 4)%nat ->
         Z.land (Z.shiftr last_byte (6 - Z.of_nat j * 2)) 3 = 0).
Proof.
  split; [reflexivity |].
  destruct (encode_spec audio_data)
    as (cs & out & _ & Henc & _ & _ & Hlen & Hbytes & Hun).
  pose proof (encode_length audio_data out Henc) as Hout.
  unfold padding in Hout.
  exists out. split; [exact Henc |].
  split; [zify; Z.to_euclidean_division_equations; lia |].
  split; [exact Hbytes |].
  intros Hrem.
  destruct (nth_error out (length out - 1)) as [last_byte |] eqn:Hlast.
  2: { apply nth_error_None in Hlast.
       zify; Z.to_euclidean_division_equations; lia. }
  exists last_byte. split; [reflexivity |].
  intros j Hj.
  pose proof (unpack_nth out (4 * (length out - 1) + j)) as Hnth.
  replace ((4 * (length out - 1) + j) / 4)%nat with (length out - 1)%nat in Hnth
    by (zify; Z.to_euclidean_division_equations; lia).
  replace ((4 * (length out - 1) + j) mod 4)%nat with j in Hnth
    by (zify; Z.to_euclidean_division_equations; lia).
  rewrite Hlast, Hun in Hnth. cbn [option_map] in Hnth.
  rewrite nth_error_app2 in Hnth
    by (rewrite Hlen; zify; Z.to_euclidean_division_equations; lia).
  rewrite nth_error_repeat in Hnth
    by (rewrite Hlen; unfold padding; zify; Z.to_euclidean_division_equations; lia).
  unfold slot in Hnth. congruence.
Qed.

Lemma C7_encoder_total_witness :
  (length [128] mod 4 <> 0)%nat /\
  (length [128] mod 4 <= 1 < 4)%nat /\
  Encoder.encode_2bit_adpcm [] = Some [] /\
  exists out,
    Encoder.encode_2bit_adpcm [128] = Some out /\
    length out = ((length [128] + 3) / 4)%nat /\
    Forall (fun b => 0 <= b < 256) out /\
    ((length [128] mod 4 <> 0)%nat ->
     exists last_byte,
       nth_error out (length out - 1) = Some last_byte /\
       forall j : nat,
         (length [128] mod 4 <= j < 4)%nat ->
         Z.land (Z.shiftr last_byte (6 - Z.of_nat j * 2)) 3 = 0).
Proof.
  split; [simpl; lia |]. split; [simpl; lia |].
  apply (C7_encoder_total [128]).
Defined.

(** C8: on every byte sequence the decoder returns, with one sample for each
    of the four codes of every byte in order, [4 * len] samples in all; it
    has no sample count to cut them to, so on the encoder's output for [n]
    samples it returns [n + padding n] samples, the last [padding n] of them
    produced by the zero codes that fill the final byte. *)
Theorem C8_decoder_all_groups (compressed_data audio_data : list Z) :
  (exists samples trace,
     Decoder.decode_2bit_adpcm compressed_data = Some samples /\
     dec_trace Decoder.initial compressed_data = Some trace /\
     samples = map fst trace /\
     length trace = (4 * length compressed_data)%nat /\
     length samples = (4 * length compressed_data)%nat) /\
  (exists out samples,
     Encoder.encode_2bit_adpcm audio_data = Some out /\
     Decoder.decode_2bit_adpcm out = Some samples /\
     length samples = (length audio_data + padding (length audio_data))%nat /\
     skipn (length audio_data) (unpack out)
       = repeat 0 (padding (length audio_data))) /\
  Encoder.encode_2bit_adpcm [128] = Some [64] /\
  Decoder.decode_2bit_adpcm [64] = Some [130; 128; 126; 124].
Proof.
  split; [| split; [| split; reflexivity]].
  - destruct (decode_spec compressed_data) as [Hdec Htr].
    do 2 eexists. split; [exact Hdec |]. split; [exact Htr |].
    split; [reflexivity |].
    split; [rewrite spec_run_length; apply unpack_length |].
    rewrite length_map, spec_run_length. apply unpack_length.
  - destruct (decode_encoded audio_data)
      as (cs & out & _ & Hlen & Henc & Hun & _ & _ & Hdec).
    do 2 eexists. split; [exact Henc |]. split; [exact Hdec |].
    split.
    + rewrite length_app, !length_map, !spec_run_length, repeat_length, Hlen.
      reflexivity.
    + rewrite Hun. apply skipn_app_exact, Hlen.
Qed.

(** ** The tables *)

Lemma sorted_nth_error (l : list Z) :
  StronglySorted Z.le l ->
  forall (i j : nat) (x y : Z),
    (i < j)%nat -> nth_error l i = Some x -> nth_error l j = Some y -> x <= y.
Proof.
  induction 1 as [| a l Hsorted IH Hall]; intros i j x y Hij Hx Hy.
  - destruct i; discriminate.
  - destruct j as [| j]; [lia |]. simpl in Hy.
    destruct i as [| i]; simpl in Hx.
    + injection Hx as <-. rewrite Forall_forall in Hall.
      apply Hall. eapply nth_error_In; eauto.
    + apply (IH i j); auto. lia.
Qed.

(** C9: the two step tables are the same sixteen numbers, non-decreasing,
    and the two index tables are both [-1, -1, 2, 2]. *)
Theorem C9_tables (i j : nat) (x y : Z) :
  Encoder.step_table = [2; 3; 4; 5; 6; 8; 10; 13; 16; 20; 25; 32; 40; 50; 63; 80] /\
  Decoder.step_table = Encoder.step_table /\
  Encoder.index_table = [-1; -1; 2; 2] /\
  Decoder.index_table = Encoder.index_table /\
  length Encoder.step_table = 16%nat /\
  ((i < j)%nat ->
   nth_error Encoder.step_table i = Some x ->
   nth_error Encoder.step_table j = Some y ->
   x <= y).
Proof.
  do 5 (split; [reflexivity |]).
  apply sorted_nth_error.
  unfold Encoder.step_table.
  repeat (apply SSorted_cons; [| repeat constructor; lia]).
  constructor.
Qed.

Lemma C9_tables_witness :
  (3 < 7)%nat /\
  nth_error Encoder.step_table 3 = Some 5 /\
  nth_error Encoder.step_table 7 = Some 13 /\
  5 <= 13.
Proof.
  split; [lia |]. split; [reflexivity |]. split; [reflexivity |].
  apply (C9_tables 3 7 5 13); [lia | reflexivity | reflexivity].
Defined.

(** C10 (as stated, refuted): seven samples of 255 bring the encoder to
    predictor 255 and step 32; there the sample 255 equals the predictor, is
    given code 1, and the predictor stays put at 255. *)
Lemma C10_saturated_stays_put :
  exists st st',
    Encoder.loop Encoder.initial [255; 255; 255; 255; 255; 255; 255] = Some st /\
    enc_reachable st /\
    Encoder.predictor st = 255 /\
    Encoder.quantize st (Encoder.predictor st) = Some (32, 1) /\
    Encoder.body st (Encoder.predictor st) = Some st' /\
    Encoder.predictor st' = Encoder.predictor st.
Proof.
  exists (Encoder.mkState 255 11 [255] 244 3).
  exists (Encoder.mkState 255 10 [255; 245] 0 0).
  assert (Hrun : Encoder.loop Encoder.initial [255; 255; 255; 255; 255; 255; 255]
                 = Some (Encoder.mkState 255 11 [255] 244 3))
    by (vm_compute; reflexivity).
  split; [exact Hrun |].
  split; [exists [255; 255; 255; 255; 255; 255; 255]; exact Hrun |].
  split; [reflexivity |].
  split; [vm_compute; reflexivity |].
  split; [vm_compute; reflexivity | reflexivity].
Qed.

(** C10 (amended): in every reachable encoder state a sample equal to the
    predictor is given code 1, never a zero delta: the predictor becomes
    [min 255 (predictor + step)].  It moves up when it is below 255, and it
    stays put exactly when it is already 255. *)
Theorem C10_no_zero_delta (st : Encoder.state) :
  enc_reachable st ->
  exists step st',
    Py.getitem Encoder.step_table (Encoder.step_index st) = Some step /\
    2 <= step /\
    Encoder.quantize st (Encoder.predictor st) = Some (step, 1) /\
    Encoder.body st (Encoder.predictor st) = Some st' /\
    Encoder.predictor st' = Z.min 255 (Encoder.predictor st + step) /\
    (Encoder.predictor st < 255 -> Encoder.predictor st < Encoder.predictor st') /\
    (Encoder.predictor st' = Encoder.predictor st <-> Encoder.predictor st = 255).
Proof.
  intros Hreach. pose proof (enc_reachable_inv st Hreach) as Hinv.
  destruct (enc_body_spec st (Encoder.predictor st) Hinv)
    as (step & code & st' & Hs & Hstep & Hcode & Hq & _ & Hbody & Hview & _).
  assert (Hhalf : 0 <= step / 2) by (apply Z.div_pos; lia).
  assert (Hone : code = 1).
  { rewrite Hcode, Z.sub_diag. unfold Encoder.choose_code.
    destruct (Z.ltb_spec 0 (- step - step / 2)); [lia |].
    destruct (Z.ltb_spec 0 (step + step / 2)); [reflexivity | lia]. }
  clear Hcode. subst code.
  destruct (step_lookup (Encoder.step_index st)) as (step' & Hs' & Hnth & _).
  { apply Hinv. }
  rewrite Hs in Hs'. injection Hs' as <-.
  assert (Hp : Encoder.predictor st' = clamp 0 255 (Encoder.predictor st + step)).
  { change (Encoder.predictor st') with (fst (enc_view st')).
    rewrite Hview. unfold spec_step, enc_view. cbn [fst snd].
    rewrite Hnth. reflexivity. }
  destruct Hinv as [[Hpred _] _ _ _ _]. cbn [enc_view fst] in Hpred.
  assert (Hmin : clamp 0 255 (Encoder.predictor st + step)
                 = Z.min 255 (Encoder.predictor st + step)).
  { unfold clamp.
    destruct (Z.ltb_spec (Encoder.predictor st + step) 0); [lia |].
    destruct (Z.gtb_spec (Encoder.predictor st + step) 255); lia. }
  exists step, st'. rewrite Hp, Hmin.
  split; [exact Hs |]. split; [lia |]. split; [exact Hq |].
  split; [exact Hbody |]. split; [reflexivity |]. split; lia.
Qed.

Lemma C10_no_zero_delta_witness :
  enc_reachable Encoder.initial /\
  Encoder.predictor Encoder.initial < 255 /\
  exists step st',
    Py.getitem Encoder.step_table (Encoder.step_index Encoder.initial) = Some step /\
    2 <= step /\
    Encoder.quantize Encoder.initial (Encoder.predictor Encoder.initial)
      = Some (step, 1) /\
    Encoder.body Encoder.initial (Encoder.predictor Encoder.initial) = Some st' /\
    Encoder.predictor st' = Z.min 255 (Encoder.predictor Encoder.initial + step) /\
    (Encoder.predictor Encoder.initial < 255 ->
     Encoder.predictor Encoder.initial < Encoder.predictor st') /\
    (Encoder.predictor st' = Encoder.predictor Encoder.initial <->
     Encoder.predictor Encoder.initial = 255).
Proof.
  split; [exists []; reflexivity |].
  split; [simpl; lia |].
  apply (C10_no_zero_delta Encoder.initial). exists []. reflexivity.
Defined.

(** * Further properties of the codec *)

(** ** How close the encoder stays to the signal *)

(** After one sample the predictor is within one step of the sample, unless
    the sample was more than three steps away, and then the distance has
    shrunk by two steps. *)
Theorem enc_tracking_error (st : Encoder.state) (sample : Z) :
  enc_reachable st -> is_sample sample ->
  exists step st',
    Py.getitem Encoder.step_table (Encoder.step_index st) = Some step /\
    Encoder.body st sample = Some st' /\
    Z.abs (sample - Encoder.predictor st')
      <= Z.max step (Z.abs (sample - Encoder.predictor st) - 2 * step).
Proof.
  intros Hreach Hsample. pose proof (enc_reachable_inv st Hreach) as Hinv.
  destruct (enc_body_spec st sample Hinv)
    as (step & code & st' & Hs & Hstep & Hcode & _ & _ & Hbody & Hview & _).
  destruct (step_lookup (Encoder.step_index st)) as (step' & Hs' & Hnth & _).
  { apply Hinv. }
  rewrite Hs in Hs'. injection Hs' as <-.
  assert (Hp : Encoder.predictor st'
               = clamp 0 255 (Encoder.predictor st + spec_delta code step)).
  { change (Encoder.predictor st') with (fst (enc_view st')).
    rewrite Hview. unfold spec_step, enc_view. cbn [fst snd].
    rewrite Hnth. reflexivity. }
  exists step, st'. split; [exact Hs |]. split; [exact Hbody |].
  rewrite Hp. clear Hp Hview Hbody Hnth Hs Hinv Hreach st'.
  unfold is_sample in Hsample.
  remember (Encoder.predictor st) as p eqn:Ep. clear Ep st.
  subst code. unfold Encoder.choose_code, clamp.
  pose proof (Z.div_mod step 2 ltac:(lia)) as Hdiv.
  pose proof (Z.mod_pos_bound step 2 ltac:(lia)) as Hmod.
  destruct (Z.ltb_spec (sample - p) (- step - step / 2));
    [| destruct (Z.ltb_spec (sample - p) 0);
       [| destruct (Z.ltb_spec (sample - p) (step + step / 2))]];
    cbn [spec_delta];
    match goal with
    | |- context [?x <? 0] => destruct (Z.ltb_spec x 0)
    end;
    try match goal with
    | |- context [?x >? 255] => destruct (Z.gtb_spec x 255)
    end; lia.
Qed.

Lemma enc_tracking_error_witness :
  enc_reachable Encoder.initial /\ is_sample 200 /\
  exists step st',
    Py.getitem Encoder.step_table (Encoder.step_index Encoder.initial) = Some step /\
    Encoder.body Encoder.initial 200 = Some st' /\
    Z.abs (200 - Encoder.predictor st')
      <= Z.max step (Z.abs (200 - Encoder.predictor Encoder.initial) - 2 * step).
Proof.
  split; [exists []; reflexivity |].
  split; [unfold is_sample; lia |].
  apply (enc_tracking_error Encoder.initial 200).
  - exists []. reflexivity.
  - unfold is_sample. lia.
Defined.

(** ** Streams in pieces *)

Lemma enc_loop_app (xs ys : list Z) (st : Encoder.state) :
  Encoder.loop st (xs ++ ys) =
    (st' <- Encoder.loop st xs ;; Encoder.loop st' ys).
Proof.
  revert st; induction xs as [| x xs IH]; intros st; [reflexivity |].
  cbn [app Encoder.loop]. destruct (Encoder.body st x) as [st1 |]; [| reflexivity].
  cbn [bind]. apply IH.
Qed.

Lemma enc_update_grows (st st' : Encoder.state) (step code : Z) :
  Encoder.update st step code = Some st' ->
  exists tail, Encoder.encoded st' = Encoder.encoded st ++ tail.
Proof.
  unfold Encoder.update.
  destruct (Py.lshift code (6 - Encoder.sample_in_byte st * 2)); [| discriminate].
  cbn [bind].
  destruct (Py.getitem Encoder.index_table code); [| discriminate].
  cbn [bind].
  destruct (Encoder.sample_in_byte st + 1 >=? 4); intros H; injection H as <-.
  - eexists. reflexivity.
  - exists []. symmetry. apply app_nil_r.
Qed.

Lemma enc_loop_grows (audio_data : list Z) (st st' : Encoder.state) :
  Encoder.loop st audio_data = Some st' ->
  exists tail, Encoder.encoded st' = Encoder.encoded st ++ tail.
Proof.
  revert st; induction audio_data as [| x xs IH]; intros st H.
  - injection H as <-. exists []. symmetry. apply app_nil_r.
  - cbn [Encoder.loop] in H.
    destruct (Encoder.body st x) as [st1 |] eqn:Hbody; [| discriminate].
    cbn [bind] in H. destruct (IH st1 H) as [tail Htail].
    unfold Encoder.body in Hbody.
    destruct (Encoder.quantize st x) as [[step code] |]; [| discriminate].
    cbn [bind] in Hbody.
    destruct (enc_update_grows _ _ _ _ Hbody) as [tail1 Htail1].
    exists (tail1 ++ tail). rewrite Htail, Htail1, app_assoc. reflexivity.
Qed.

Lemma bytes_some (l l' : list Z) : Py.bytes l = Some l' -> l' = l.
Proof.
  unfold Py.bytes. destruct (forallb Py.is_byte l); congruence.
Qed.

(** The bytes the encoder has written for a whole number of bytes' worth of
    samples do not change when more samples follow. *)
Theorem encode_aligned_prefix (first rest : list Z) :
  (length first mod 4 = 0)%nat ->
  exists out tail,
    Encoder.encode_2bit_adpcm first = Some out /\
    Encoder.encode_2bit_adpcm (first ++ rest) = Some (out ++ tail) /\
    length out = (length first / 4)%nat.
Proof.
  intros Hal.
  destruct (enc_loop_spec first Encoder.initial enc_initial_inv)
    as (cs & st1 & _ & Hloop1 & _ & _ & Hlen & _ & Hinv1 & Hem).
  pose proof (emitted_length st1 Hinv1) as Hcount.
  change (emitted Encoder.initial) with (@nil Z) in Hem.
  rewrite Hem, app_nil_l, Hlen in Hcount.
  assert (Hk : Encoder.sample_in_byte st1 = 0).
  { destruct Hinv1 as [_ Hk _ _ _].
    zify; Z.to_euclidean_division_equations; lia. }
  assert (Hfin1 : Encoder.finish st1 = Some (Encoder.encoded st1)).
  { unfold Encoder.finish. rewrite Hk. cbn. apply bytes_ok, Hinv1. }
  destruct (enc_loop_spec rest st1 Hinv1)
    as (cs2 & st2 & _ & Hloop2 & _ & _ & _ & _ & Hinv2 & _).
  destruct (enc_loop_grows rest st1 st2 Hloop2) as [tail Htail].
  destruct (enc_finish_spec st2 Hinv2) as (out2 & Hfin2 & _ & _).
  pose proof Hfin2 as Hshape. unfold Encoder.finish in Hshape.
  apply bytes_some in Hshape.
  exists (Encoder.encoded st1),
    (tail ++ if Encoder.sample_in_byte st2 >? 0
             then [Encoder.current_byte st2] else []).
  unfold Encoder.encode_2bit_adpcm.
  rewrite enc_loop_app, Hloop1. cbn [bind]. rewrite Hloop2. cbn [bind].
  split; [exact Hfin1 |]. split.
  - rewrite Hfin2, Hshape, Htail. f_equal.
    destruct (Encoder.sample_in_byte st2 >? 0).
    + rewrite <- app_assoc. reflexivity.
    + rewrite app_nil_r. reflexivity.
  - rewrite Hk in Hcount. zify; Z.to_euclidean_division_equations; lia.
Qed.

Lemma encode_aligned_prefix_witness :
  (length [128; 128; 128; 128] mod 4 = 0)%nat /\
  exists out tail,
    Encoder.encode_2bit_adpcm [128; 128; 128; 128] = Some out /\
    Encoder.encode_2bit_adpcm ([128; 128; 128; 128] ++ [200; 7]) = Some (out ++ tail) /\
    length out = (length [128; 128; 128; 128] / 4)%nat.
Proof.
  split; [reflexivity |].
  apply (encode_aligned_prefix [128; 128; 128; 128] [200; 7]). reflexivity.
Defined.

(** The decoder is a left-to-right scan: the samples of a byte sequence are
    the leading samples of any longer sequence that starts with it, four per
    byte. *)
Theorem decode_prefix (first rest : list Z) :
  exists samples more,
    Decoder.decode_2bit_adpcm first = Some samples /\
    Decoder.decode_2bit_adpcm (first ++ rest) = Some (samples ++ more) /\
    length samples = (4 * length first)%nat /\
    length more = (4 * length rest)%nat.
Proof.
  destruct (decode_spec first) as [Hd1 _].
  destruct (decode_spec (first ++ rest)) as [Hd2 _].
  rewrite unpack_app, spec_run_app, map_app in Hd2.
  do 2 eexists. split; [exact Hd1 |]. split; [exact Hd2 |].
  rewrite !length_map, !spec_run_length, !unpack_length. split; reflexivity.
Qed.

(** Without a sample count the decoder returns as many samples as the
    encoder was given exactly when that number is a multiple of 4. *)
Theorem roundtrip_length (audio_data : list Z) :
  exists out samples,
    Encoder.encode_2bit_adpcm audio_data = Some out /\
    Decoder.decode_2bit_adpcm out = Some samples /\
    (length audio_data <= length samples < length audio_data + 4)%nat /\
    (length samples = length audio_data <-> (length audio_data mod 4 = 0)%nat).
Proof.
  destruct (decode_encoded audio_data)
    as (cs & out & _ & Hlen & Henc & _ & _ & _ & Hdec).
  do 2 eexists. split; [exact Henc |]. split; [exact Hdec |].
  rewrite length_app, !length_map, !spec_run_length, repeat_length, Hlen.
  unfold padding. split; [| split; intros H];
    zify; Z.to_euclidean_division_equations; lia.
Qed.

Lemma roundtrip_length_witness :
  exists out samples,
    Encoder.encode_2bit_adpcm [128; 7] = Some out /\
    Decoder.decode_2bit_adpcm out = Some samples /\
    (length [128; 7] <= length samples < length [128; 7] + 4)%nat /\
    (length samples = length [128; 7] <-> (length [128; 7] mod 4 = 0)%nat).
Proof. apply (roundtrip_length [128; 7]). Defined.

(** ** Saturation *)

Lemma dec_reachable_inv (st : Decoder.state) : dec_reachable st -> dec_inv st.
Proof.
  intros (bs & b & k & Hafter). unfold dec_after in Hafter.
  destruct (dec_loop_spec bs Decoder.initial dec_initial_inv)
    as (st0 & Hloop & _ & _ & _ & Hinv0).
  rewrite Hloop in Hafter. cbn [bind] in Hafter.
  destruct (dec_inner_spec b (firstn k Py.range4) st0 Hinv0 (firstn_slots k))
    as (st' & Hin & _ & _ & _ & Hinv).
  rewrite Hin in Hafter. injection Hafter as <-. exact Hinv.
Qed.

(** The predictor never wraps: the codes 1 and 3 never lower it and leave it
    at 255 once it is there, the codes 0 and 2 never raise it and leave it at
    0 once it is there, and one code moves it by at most 160. *)
Theorem predictor_saturates (st : Decoder.state) (code : Z) :
  dec_reachable st -> is_code code ->
  exists st',
    Decoder.update st code = Some st' /\
    (code = 1 \/ code = 3 ->
     Decoder.predictor st <= Decoder.predictor st' /\
     (Decoder.predictor st = 255 -> Decoder.predictor st' = 255)) /\
    (code = 0 \/ code = 2 ->
     Decoder.predictor st' <= Decoder.predictor st /\
     (Decoder.predictor st = 0 -> Decoder.predictor st' = 0)) /\
    Z.abs (Decoder.predictor st' - Decoder.predictor st) <= 160.
Proof.
  intros Hreach Hcode. pose proof (dec_reachable_inv st Hreach) as Hinv.
  destruct (dec_update_spec st code Hinv Hcode) as (st' & Hup & Hview & _ & _).
  destruct Hinv as [[Hp Hi] _]. cbn [dec_view fst snd] in Hp, Hi.
  destruct (step_lookup (Decoder.step_index st) Hi) as (step & _ & Hnth & Hstep).
  assert (Hp' : Decoder.predictor st'
                = clamp 0 255 (Decoder.predictor st + spec_delta code step)).
  { change (Decoder.predictor st') with (fst (dec_view st')).
    rewrite Hview. unfold spec_step, dec_view. cbn [fst snd].
    rewrite Hnth. reflexivity. }
  exists st'. split; [exact Hup |]. rewrite Hp'. unfold clamp.
  split_small Hcode; cbn [spec_delta];
    match goal with
    | |- context [?x <? 0] => destruct (Z.ltb_spec x 0)
    end;
    try match goal with
    | |- context [?x >? 255] => destruct (Z.gtb_spec x 255)
    end; lia.
Qed.

Lemma predictor_saturates_witness :
  dec_reachable Decoder.initial /\ is_code 3 /\
  exists st',
    Decoder.update Decoder.initial 3 = Some st' /\
    (3 = 1 \/ 3 = 3 ->
     Decoder.predictor Decoder.initial <= Decoder.predictor st' /\
     (Decoder.predictor Decoder.initial = 255 -> Decoder.predictor st' = 255)) /\
    (3 = 0 \/ 3 = 2 ->
     Decoder.predictor st' <= Decoder.predictor Decoder.initial /\
     (Decoder.predictor Decoder.initial = 0 -> Decoder.predictor st' = 0)) /\
    Z.abs (Decoder.predictor st' - Decoder.predictor Decoder.initial) <= 160.
Proof.
  split; [exists [], 0, 0%nat; reflexivity |].
  split; [unfold is_code; lia |].
  apply (predictor_saturates Decoder.initial 3).
  - exists [], 0, 0%nat. reflexivity.
  - unfold is_code. lia.
Defined.

(** ** Silence *)

Lemma enc_silence_block (st : Encoder.state) :
  Encoder.predictor st = 128 -> Encoder.step_index st = 0 ->
  Encoder.current_byte st = 0 -> Encoder.sample_in_byte st = 0 ->
  Encoder.loop st [128; 128; 128; 128] =
    Some (Encoder.mkState 128 0 (Encoder.encoded st ++ [0x44]) 0 0).
Proof.
  destruct st as [p i enc cb k]; simpl. intros -> -> -> ->. reflexivity.
Qed.

Lemma enc_silence_loop (k : nat) (st : Encoder.state) :
  Encoder.predictor st = 128 -> Encoder.step_index st = 0 ->
  Encoder.current_byte st = 0 -> Encoder.sample_in_byte st = 0 ->
  Encoder.loop st (repeat 128 (k * 4)) =
    Some (Encoder.mkState 128 0 (Encoder.encoded st ++ repeat 0x44 k) 0 0).
Proof.
  revert st; induction k as [| k IH]; intros st Hp Hi Hc Hs.
  - destruct st; simpl in *; subst. rewrite app_nil_r. reflexivity.
  - change (repeat 128 (S k * 4)) with ([128; 128; 128; 128] ++ repeat 128 (k * 4)).
    rewrite enc_loop_app, (enc_silence_block st Hp Hi Hc Hs). cbn [bind].
    rewrite IH by reflexivity. cbn [Encoder.encoded].
    rewrite <- app_assoc. reflexivity.
Qed.

Lemma silence_codes (k : nat) :
  spec_run spec_initial (unpack (repeat 0x44 k))
    = concat (repeat [(130, 0); (128, 0); (130, 0); (128, 0)] k) /\
  spec_final spec_initial (unpack (repeat 0x44 k)) = spec_initial.
Proof.
  induction k as [| k [IHrun IHfin]]; [split; reflexivity |].
  change (repeat 0x44 (S k)) with ([0x44] ++ repeat 0x44 k).
  rewrite unpack_app, spec_run_app, spec_final_app.
  change (spec_final spec_initial (unpack [0x44])) with spec_initial.
  rewrite IHrun, IHfin. split; reflexivity.
Qed.

(** Silence is not reproduced as silence: any whole number of bytes' worth
    of samples at 128 is encoded as that many bytes 0x44, which decode to the
    predictor swinging between 130 and 128. *)
Theorem silence_idles (k : nat) :
  Encoder.encode_2bit_adpcm (repeat 128 (4 * k)) = Some (repeat 0x44 k) /\
  Decoder.decode_2bit_adpcm (repeat 0x44 k)
    = Some (concat (repeat [130; 128; 130; 128] k)).
Proof.
  split.
  - unfold Encoder.encode_2bit_adpcm. rewrite Nat.mul_comm.
    rewrite (enc_silence_loop k Encoder.initial) by reflexivity. cbn [bind].
    unfold Encoder.finish. cbn. apply bytes_ok.
    apply Forall_forall. intros b Hb. apply repeat_spec in Hb. lia.
  - destruct (decode_spec (repeat 0x44 k)) as [Hdec _]. rewrite Hdec.
    destruct (silence_codes k) as [-> _]. f_equal. clear Hdec.
    induction k as [| k IH]; [reflexivity |].
    cbn [repeat concat]. rewrite map_app, IH. reflexivity.
Qed.

(** * The MIDI reader *)

(** ** Indexing and slicing *)

Lemma getitem_nonneg (l : list Z) (i : Z) :
  0 <= i -> Py.getitem l i = nth_error l (Z.to_nat i).
Proof.
  intros H. unfold Py.getitem. destruct (Z.leb_spec 0 i); [reflexivity | lia].
Qed.

Lemma getitem_some (l : list Z) (i b : Z) :
  0 <= i -> Py.getitem l i = Some b ->
  i < Z.of_nat (length l) /\ nth (Z.to_nat i) l 0 = b /\
  nth_error l (Z.to_nat i) = Some b.
Proof.
  intros Hi H. rewrite getitem_nonneg in H by exact Hi.
  split; [| split; [apply nth_error_nth; exact H | exact H]].
  assert (Z.to_nat i < length l)%nat by (apply nth_error_Some; congruence). lia.
Qed.

Lemma getitem_none (l : list Z) (i : Z) :
  0 <= i -> Py.getitem l i = None -> Z.of_nat (length l) <= i.
Proof.
  intros Hi H. rewrite getitem_nonneg in H by exact Hi.
  apply nth_error_None in H. lia.
Qed.

Lemma slice_in_range (data : list Z) (lo hi : Z) :
  0 <= lo <= hi -> hi <= Z.of_nat (length data) ->
  Py.slice data lo hi = firstn (Z.to_nat (hi - lo)) (skipn (Z.to_nat lo) data).
Proof.
  intros Hlo Hhi. unfold Py.slice, Py.slice_bound.
  destruct (Z.ltb_spec lo 0); [lia |]. destruct (Z.ltb_spec hi 0); [lia |].
  rewrite !Z.min_l by lia. reflexivity.
Qed.

Lemma slice_length (data : list Z) (lo hi : Z) :
  0 <= lo <= hi -> hi <= Z.of_nat (length data) ->
  Z.of_nat (length (Py.slice data lo hi)) = hi - lo.
Proof.
  intros Hlo Hhi. rewrite slice_in_range by assumption.
  rewrite length_firstn, length_skipn. lia.
Qed.

Lemma skipn_cons_nth (data : list Z) (n : nat) (b : Z) :
  nth_error data n = Some b -> skipn n data = b :: skipn (S n) data.
Proof.
  revert n; induction data as [| x data IH]; intros n H.
  - destruct n; discriminate.
  - destruct n as [| n]; simpl in H.
    + injection H as ->. reflexivity.
    + change (skipn (S n) (x :: data)) with (skipn n data).
      rewrite (IH n H). reflexivity.
Qed.

Lemma slice_cons (data : list Z) (lo hi b : Z) :
  0 <= lo < hi -> hi <= Z.of_nat (length data) ->
  nth_error data (Z.to_nat lo) = Some b ->
  Py.slice data lo hi = b :: Py.slice data (lo + 1) hi.
Proof.
  intros Hlo Hhi Hb. rewrite !slice_in_range by lia.
  rewrite (skipn_cons_nth data _ b Hb).
  replace (Z.to_nat (hi - lo)) with (S (Z.to_nat (hi - (lo + 1)))) by lia.
  replace (Z.to_nat (lo + 1)) with (S (Z.to_nat lo)) by lia.
  reflexivity.
Qed.

Lemma slice_empty (data : list Z) (lo : Z) :
  0 <= lo <= Z.of_nat (length data) -> Py.slice data lo lo = [].
Proof.
  intros H. rewrite slice_in_range by lia. rewrite Z.sub_diag. reflexivity.
Qed.

(** ** Variable-length quantities *)

Lemma vlq_accumulate (val b : Z) :
  Z.lor (Z.shiftl val 7) (Z.land b 0x7F) = val * 128 + b mod 128.
Proof.
  change 0x7F with (Z.ones 7). rewrite Z.land_ones by lia.
  rewrite Z.shiftl_mul_pow2 by lia. change (2 ^ 7) with 128.
  rewrite <- Z.lxor_lor, <- Z.add_nocarry_lxor; [reflexivity | |];
    (apply Z.bits_inj'; intros n Hn; rewrite Z.land_spec, Z.bits_0;
     destruct (Z.ltb_spec n 7);
     [ replace (val * 128) with (Z.shiftl val 7)
         by (rewrite Z.shiftl_mul_pow2 by lia; reflexivity);
       rewrite Z.shiftl_spec_low by lia; reflexivity
     | change 128 with (2 ^ 7) at 2;
       rewrite (Z.mod_pow2_bits_high b 7 n) by lia; apply andb_false_r ]).
Qed.

Lemma vlq_value_bounds (groups : list Z) (start : Z) :
  0 <= start ->
  0 <= vlq_value groups start < (start + 1) * 128 ^ Z.of_nat (length groups).
Proof.
  revert start; induction groups as [| b groups IH]; intros start Hs.
  - simpl. lia.
  - pose proof (Z.mod_pos_bound b 128 ltac:(lia)) as Hb.
    specialize (IH (start * 128 + b mod 128) ltac:(lia)).
    change (vlq_value (b :: groups) start)
      with (vlq_value groups (start * 128 + b mod 128)).
    rewrite length_cons, Nat2Z.inj_succ, Z.pow_succ_r by lia.
    assert (0 < 128 ^ Z.of_nat (length groups)) by (apply Z.pow_pos_nonneg; lia).
    nia.
Qed.

Lemma read_vlq_loop_spec (fuel : nat) (data : list Z) (val offset : Z) :
  0 <= offset ->
  (Z.to_nat (Z.of_nat (length data) - offset) < fuel)%nat ->
  match Midi.read_vlq_loop fuel data val offset with
  | Returns (v, next) =>
      offset < next <= Z.of_nat (length data) /\
      (forall i, offset <= i < next - 1 -> continues data i) /\
      ~ continues data (next - 1) /\
      v = vlq_value (Py.slice data offset next) val
  | Raises => forall i, offset <= i < Z.of_nat (length data) -> continues data i
  | OutOfFuel => False
  end.
Proof.
  revert val offset; induction fuel as [| fuel IH]; intros val offset Hoff Hfuel;
    [lia |].
  cbn [Midi.read_vlq_loop].
  destruct (Py.getitem data offset) as [b |] eqn:Hget; cbn [lift rbind].
  - destruct (getitem_some data offset b Hoff Hget) as (Hlt & Hnth & Herr).
    rewrite vlq_accumulate.
    destruct (Z.eqb_spec (Z.land b 0x80) 0) as [Hstop | Hcont].
    + split; [lia |]. split; [intros i Hi; lia |].
      split.
      * unfold continues. replace (offset + 1 - 1) with offset by lia.
        rewrite Hnth. intros Hc. apply Hc, Hstop.
      * rewrite (slice_cons data offset (offset + 1) b) by (lia || exact Herr).
        rewrite slice_empty by lia. reflexivity.
    + specialize (IH (val * 128 + b mod 128) (offset + 1) ltac:(lia) ltac:(lia)).
      destruct (Midi.read_vlq_loop fuel data (val * 128 + b mod 128) (offset + 1))
        as [[v next] | |]; [| | exact IH].
      * destruct IH as (Hnext & Hconts & Hlast & Hv).
        split; [lia |]. split; [| split; [exact Hlast |]].
        -- intros i Hi. destruct (Z.eq_dec i offset) as [-> | Hne].
           ++ unfold continues. rewrite Hnth. exact Hcont.
           ++ apply Hconts. lia.
        -- rewrite (slice_cons data offset next b) by (lia || exact Herr).
           exact Hv.
      * intros i Hi. destruct (Z.eq_dec i offset) as [-> | Hne].
        -- unfold continues. rewrite Hnth. exact Hcont.
        -- apply IH. lia.
  - intros i Hi. apply getitem_none in Hget; lia.
Qed.

(** [read_vlq] returns the number spelt by the bytes from [offset] up to and
    including the first byte with a clear top bit, and the offset behind that
    byte; the number is below 128 to the number of bytes read. *)
Theorem read_vlq_returns (data : list Z) (offset val next : Z) :
  0 <= offset ->
  Midi.read_vlq data offset = Returns (val, next) ->
  offset < next <= Z.of_nat (length data) /\
  (forall i, offset <= i < next - 1 ->
     Z.land (nth (Z.to_nat i) data 0) 0x80 <> 0) /\
  Z.land (nth (Z.to_nat (next - 1)) data 0) 0x80 = 0 /\
  val = vlq_value (Py.slice data offset next) 0 /\
  0 <= val < 128 ^ (next - offset).
Proof.
  intros Hoff Hret. unfold Midi.read_vlq in Hret.
  pose proof (read_vlq_loop_spec _ data 0 offset Hoff (Nat.lt_succ_diag_r _)) as H.
  rewrite Hret in H. destruct H as (Hnext & Hconts & Hlast & Hv).
  split; [exact Hnext |]. split; [exact Hconts |].
  split; [unfold continues in Hlast; lia |]. split; [exact Hv |].
  pose proof (vlq_value_bounds (Py.slice data offset next) 0 ltac:(lia)) as Hb.
  rewrite slice_length in Hb by lia. rewrite <- Hv in Hb. lia.
Qed.

Lemma read_vlq_returns_witness :
  0 <= 1 /\
  Midi.read_vlq [0; 0x81; 0x48; 0x90] 1 = Returns (200, 3) /\
  1 < 3 <= Z.of_nat (length [0; 0x81; 0x48; 0x90]) /\
  (forall i, 1 <= i < 3 - 1 ->
     Z.land (nth (Z.to_nat i) [0; 0x81; 0x48; 0x90] 0) 0x80 <> 0) /\
  Z.land (nth (Z.to_nat (3 - 1)) [0; 0x81; 0x48; 0x90] 0) 0x80 = 0 /\
  200 = vlq_value (Py.slice [0; 0x81; 0x48; 0x90] 1 3) 0 /\
  0 <= 200 < 128 ^ (3 - 1).
Proof.
  split; [lia |]. split; [reflexivity |].
  apply (read_vlq_returns [0; 0x81; 0x48; 0x90] 1 200 3); [lia | reflexivity].
Defined.

(** [read_vlq] always ends, and it raises (IndexError) exactly when no byte
    from [offset] on has a clear top bit, in particular at the end of the
    data. *)
Theorem read_vlq_raises (data : list Z) (offset : Z) :
  0 <= offset ->
  Midi.read_vlq data offset <> OutOfFuel /\
  (Midi.read_vlq data offset = Raises <->
   forall i, offset <= i < Z.of_nat (length data) ->
     Z.land (nth (Z.to_nat i) data 0) 0x80 <> 0).
Proof.
  intros Hoff. unfold Midi.read_vlq.
  pose proof (read_vlq_loop_spec _ data 0 offset Hoff (Nat.lt_succ_diag_r _)) as H.
  destruct (Midi.read_vlq_loop _ data 0 offset) as [[v next] | |];
    [| | contradiction].
  - destruct H as (Hnext & _ & Hlast & _).
    split; [discriminate |]. split; [discriminate |].
    intros Hall. exfalso. apply Hlast, Hall. lia.
  - split; [discriminate |]. split; [intros _; exact H | reflexivity].
Qed.

Lemma read_vlq_raises_witness :
  0 <= 0 /\
  Midi.read_vlq [0x81; 0x80] 0 <> OutOfFuel /\
  (Midi.read_vlq [0x81; 0x80] 0 = Raises <->
   forall i, 0 <= i < Z.of_nat (length [0x81; 0x80]) ->
     Z.land (nth (Z.to_nat i) [0x81; 0x80] 0) 0x80 <> 0).
Proof.
  split; [lia |]. apply (read_vlq_raises [0x81; 0x80] 0). lia.
Defined.

(** ** Parsing a track *)

Lemma sorted_snoc (l : list Z) (x : Z) :
  StronglySorted Z.le l -> Forall (fun y => y <= x) l ->
  StronglySorted Z.le (l ++ [x]).
Proof.
  induction 1 as [| a l Hs IH Hall]; intros Hle; simpl.
  - constructor; constructor.
  - inversion Hle as [| ? ? Ha Hl]; subst.
    constructor; [apply IH, Hl |].
    apply Forall_app; split; [exact Hall | constructor; [exact Ha | constructor]].
Qed.

Lemma read_vlq_cases (data : list Z) (offset : Z) :
  0 <= offset ->
  match Midi.read_vlq data offset with
  | Returns (v, next) => offset < next /\ 0 <= v
  | Raises => True
  | OutOfFuel => False
  end.
Proof.
  intros Hoff. unfold Midi.read_vlq.
  pose proof (read_vlq_loop_spec _ data 0 offset Hoff (Nat.lt_succ_diag_r _)) as H.
  destruct (Midi.read_vlq_loop _ data 0 offset) as [[v next] | |];
    [| exact I | exact H].
  destruct H as (Hnext & _ & _ & Hv).
  pose proof (vlq_value_bounds (Py.slice data offset next) 0 ltac:(lia)) as Hb.
  rewrite <- Hv in Hb. lia.
Qed.

Lemma land_15 (x : Z) : 0 <= Z.land x 0x0F <= 15.
Proof.
  pose proof (Z.land_ones x 4 ltac:(lia)) as H.
  change (Z.ones 4) with 0x0F in H. rewrite H.
  pose proof (Z.mod_pos_bound x (2 ^ 4) ltac:(lia)). lia.
Qed.

Lemma cursor_keep (c : Midi.cursor) (o tk : Z) (rs : option Z) :
  cursor_inv c -> 0 <= o -> Midi.ticks c <= tk ->
  cursor_inv (Midi.mkCursor o tk rs (Midi.t c)).
Proof.
  intros [Ho Ht Hs Hu Hsh] Ho' Htk. constructor; cbn; auto; try lia.
  eapply Forall_impl; [| exact Hu]. cbn. intros e He. lia.
Qed.

Lemma cursor_append (c : Midi.cursor) (o : Z) (rs : option Z)
    (ev : Midi.MidiEvent) (tr : Midi.Track) :
  cursor_inv c -> 0 <= o -> Midi.ticks c <= Midi.abs_ticks ev ->
  event_shaped ev ->
  Midi.events tr = Midi.events (Midi.t c) ++ [ev] ->
  cursor_inv (Midi.mkCursor o (Midi.abs_ticks ev) rs tr).
Proof.
  intros [Ho Ht Hs Hu Hsh] Ho' Htk Hev Heq.
  constructor; cbn; try lia; rewrite Heq.
  - rewrite map_app. apply sorted_snoc; [exact Hs |].
    apply Forall_map. eapply Forall_impl; [| exact Hu]. cbn. intros e He. lia.
  - apply Forall_app; split.
    + eapply Forall_impl; [| exact Hu]. cbn. intros e He. lia.
    + constructor; [lia | constructor].
  - apply Forall_app; split; [exact Hsh | constructor; [exact Hev | constructor]].
Qed.

Lemma read_status_cases (trk_data : list Z) (c : Midi.cursor) (o : Z) :
  match Midi.read_status trk_data c o with
  | Returns (status, o', rs) => o <= o'
  | Raises => True
  | OutOfFuel => False
  end.
Proof.
  unfold Midi.read_status.
  destruct (Py.getitem trk_data o) as [b |]; cbn [lift rbind]; [| exact I].
  destruct (b <? 0x80).
  - destruct (Midi.running_status c); [lia | exact I].
  - lia.
Qed.

Lemma track_body_spec (trk_data : list Z) (c : Midi.cursor) :
  cursor_inv c ->
  match Midi.track_body trk_data c with
  | Returns c' => cursor_inv c' /\ Midi.off c < Midi.off c'
  | Raises => True
  | OutOfFuel => False
  end.
Proof.
  intros Hinv. pose proof (ci_off c Hinv) as Hoff.
  pose proof (ci_ticks c Hinv) as Hticks.
  unfold Midi.track_body.
  pose proof (read_vlq_cases trk_data (Midi.off c) Hoff) as Hvlq.
  destruct (Midi.read_vlq trk_data (Midi.off c)) as [[delta o1] | |];
    cbn [rbind]; [| exact I | exact Hvlq].
  destruct Hvlq as [Ho1 Hdelta].
  pose proof (read_status_cases trk_data c o1) as Hst.
  destruct (Midi.read_status trk_data c o1) as [[[status o2] rs] | |];
    cbn [rbind]; [| exact I | exact Hst].
  destruct (status =? 0xFF).
  { destruct (Py.getitem trk_data o2) as [mt |]; cbn [lift rbind]; [| exact I].
    pose proof (read_vlq_cases trk_data (o2 + 1) ltac:(lia)) as Hlen.
    destruct (Midi.read_vlq trk_data (o2 + 1)) as [[len o3] | |];
      cbn [rbind]; [| exact I | exact Hlen].
    destruct Hlen as [Ho3 Hlen].
    split; [| cbn; lia].
    set (ev := Midi.mkEvent (Midi.ticks c + delta) Midi.meta None None None
                 (Some mt) (Py.slice trk_data o3 (o3 + len))).
    apply (cursor_append c (o3 + len) rs ev); try (cbn; lia); auto.
    - cbn. exists mt. auto.
    - destruct (mt =? 0x03); reflexivity. }
  destruct ((status =? 0xF0) || (status =? 0xF7)).
  { pose proof (read_vlq_cases trk_data o2 ltac:(lia)) as Hlen.
    destruct (Midi.read_vlq trk_data o2) as [[len o3] | |];
      cbn [rbind]; [| exact I | exact Hlen].
    destruct Hlen as [Ho3 Hlen].
    split; [apply cursor_keep; auto; lia | cbn; lia]. }
  pose proof (land_15 status) as Hch.
  destruct ((Z.land status 0xF0 =? 0x80) || (Z.land status 0xF0 =? 0x90)
            || (Z.land status 0xF0 =? 0xA0) || (Z.land status 0xF0 =? 0xB0)
            || (Z.land status 0xF0 =? 0xE0)).
  { destruct (Py.getitem trk_data o2) as [d1 |]; cbn [lift rbind]; [| exact I].
    destruct (Py.getitem trk_data (o2 + 1)) as [d2 |]; cbn [lift rbind];
      [| exact I].
    split; [| cbn; lia].
    destruct (Z.land status 0xF0 =? 0x90);
      [destruct (Z.eqb_spec d2 0) | destruct (Z.land status 0xF0 =? 0x80)].
    - set (ev := Midi.mkEvent (Midi.ticks c + delta) Midi.note_off
                   (Some (Z.land status 0x0F)) (Some d1) (Some 0) None []).
      apply (cursor_append c (o2 + 2) rs ev); try (cbn; lia); auto.
      cbn. exists (Z.land status 0x0F), d1, 0. auto.
    - set (ev := Midi.mkEvent (Midi.ticks c + delta) Midi.note_on
                   (Some (Z.land status 0x0F)) (Some d1) (Some d2) None []).
      apply (cursor_append c (o2 + 2) rs ev); try (cbn; lia); auto.
      cbn. exists (Z.land status 0x0F), d1, d2. auto.
    - set (ev := Midi.mkEvent (Midi.ticks c + delta) Midi.note_off
                   (Some (Z.land status 0x0F)) (Some d1) (Some d2) None []).
      apply (cursor_append c (o2 + 2) rs ev); try (cbn; lia); auto.
      cbn. exists (Z.land status 0x0F), d1, d2. auto.
    - apply cursor_keep; auto; lia. }
  destruct ((Z.land status 0xF0 =? 0xC0) || (Z.land status 0xF0 =? 0xD0));
    [| exact I].
  destruct (Py.getitem trk_data o2) as [d1 |]; cbn [lift rbind]; [| exact I].
  split; [apply cursor_keep; auto; lia | cbn; lia].
Qed.

Lemma track_loop_spec (fuel : nat) (trk_data : list Z) (c : Midi.cursor) :
  cursor_inv c ->
  (Z.to_nat (Z.of_nat (length trk_data) - Midi.off c) <= fuel)%nat ->
  match Midi.track_loop fuel trk_data c with
  | Returns c' => cursor_inv c'
  | Raises => True
  | OutOfFuel => False
  end.
Proof.
  revert c; induction fuel as [| fuel IH]; intros c Hinv Hfuel.
  - cbn [Midi.track_loop].
    destruct (Z.ltb_spec (Midi.off c) (Z.of_nat (length trk_data)));
      [lia | exact Hinv].
  - cbn [Midi.track_loop].
    destruct (Z.ltb_spec (Midi.off c) (Z.of_nat (length trk_data)));
      [| exact Hinv].
    pose proof (track_body_spec trk_data c Hinv) as Hbody.
    destruct (Midi.track_body trk_data c) as [c' | |]; cbn [rbind];
      [| exact I | exact Hbody].
    destruct Hbody as [Hinv' Hprog]. apply IH; [exact Hinv' | lia].
Qed.

Lemma parse_track_spec (trk_data : list Z) :
  match Midi._parse_track trk_data with
  | Returns tr =>
      StronglySorted Z.le (map Midi.abs_ticks (Midi.events tr)) /\
      Forall (fun e => 0 <= Midi.abs_ticks e) (Midi.events tr) /\
      Forall event_shaped (Midi.events tr)
  | Raises => True
  | OutOfFuel => False
  end.
Proof.
  unfold Midi._parse_track.
  assert (Hinit : cursor_inv (Midi.mkCursor 0 0 None (Midi.mkTrack [] None))).
  { constructor; cbn; try lia; constructor. }
  pose proof (track_loop_spec (length trk_data) trk_data _ Hinit) as H.
  cbn [Midi.off] in H. specialize (H ltac:(lia)).
  destruct (Midi.track_loop (length trk_data) trk_data _) as [c | |];
    cbn [rbind]; [| exact I | exact H].
  destruct H as [_ _ Hs Hu Hsh].
  split; [exact Hs |]. split; [| exact Hsh].
  eapply Forall_impl; [| exact Hu]. cbn. intros e He. lia.
Qed.

(** [_parse_track] ends on every byte sequence: its loop moves forward by at
    least one byte each time round, so as many rounds as there are bytes are
    enough.  The empty track has no events and no name. *)
Theorem parse_track_terminates (trk_data : list Z) :
  Midi._parse_track trk_data <> OutOfFuel /\
  Midi._parse_track [] = Returns (Midi.mkTrack [] None).
Proof.
  split; [| reflexivity].
  pose proof (parse_track_spec trk_data) as H.
  destruct (Midi._parse_track trk_data);
    [discriminate | discriminate | destruct H].
Qed.

Lemma parse_track_terminates_witness :
  Midi._parse_track [0; 0x90; 0x3C] <> OutOfFuel.
Proof. apply (parse_track_terminates [0; 0x90; 0x3C]). Defined.

(** The events of a parsed track are in the order of their times: the
    absolute ticks never decrease along the list and are never negative. *)
Theorem parse_track_ticks_sorted (trk_data : list Z) (tr : Midi.Track) :
  Midi._parse_track trk_data = Returns tr ->
  StronglySorted Z.le (map Midi.abs_ticks (Midi.events tr)) /\
  Forall (fun e => 0 <= Midi.abs_ticks e) (Midi.events tr).
Proof.
  intros H. pose proof (parse_track_spec trk_data) as Hspec.
  rewrite H in Hspec. split; apply Hspec.
Qed.

(** Every note event of a parsed track has a channel from 0 to 15, a note
    and a velocity, and a note-on never has velocity 0: such a message is
    recorded as a note-off. *)
Theorem parse_track_events_shaped (trk_data : list Z) (tr : Midi.Track) :
  Midi._parse_track trk_data = Returns tr ->
  Forall event_shaped (Midi.events tr).
Proof.
  intros H. pose proof (parse_track_spec trk_data) as Hspec.
  rewrite H in Hspec. apply Hspec.
Qed.

Lemma parse_track_ticks_sorted_witness :
  exists tr,
    Midi._parse_track [0; 0x90; 0x3C; 0x40; 0x60; 0x80; 0x3C; 0] = Returns tr /\
    StronglySorted Z.le (map Midi.abs_ticks (Midi.events tr)) /\
    Forall (fun e => 0 <= Midi.abs_ticks e) (Midi.events tr).
Proof.
  eexists. split; [reflexivity |].
  apply (parse_track_ticks_sorted [0; 0x90; 0x3C; 0x40; 0x60; 0x80; 0x3C; 0]).
  reflexivity.
Defined.

Lemma parse_track_events_shaped_witness :
  exists tr,
    Midi._parse_track [0; 0x90; 0x3C; 0x40; 0x60; 0x90; 0x3C; 0] = Returns tr /\
    Forall event_shaped (Midi.events tr).
Proof.
  eexists. split; [reflexivity |].
  apply (parse_track_events_shaped [0; 0x90; 0x3C; 0x40; 0x60; 0x90; 0x3C; 0]).
  reflexivity.
Defined.

Lemma low_byte_stops (d : Z) : 0 <= d < 128 -> Z.land d 0x80 = 0.
Proof.
  intros Hd. apply Z.bits_inj'. intros n Hn.
  rewrite Z.land_spec, Z.bits_0. change 0x80 with (2 ^ 7).
  rewrite Z.pow2_bits_eqb by lia.
  destruct (Z.eqb_spec 7 n) as [<- | Hne]; [| apply andb_false_r].
  rewrite andb_true_r. apply Z.testbit_false; [lia |].
  change (2 ^ 7) with 128. rewrite Z.div_small by lia. reflexivity.
Qed.

(** A track whose first event starts with a data byte has no status to run
    on and is rejected (ValueError). *)
Theorem parse_track_needs_status (d s : Z) (rest : list Z) :
  0 <= d < 128 -> 0 <= s < 128 ->
  Midi._parse_track (d :: s :: rest) = Raises.
Proof.
  intros Hd Hs. unfold Midi._parse_track.
  cbn [length Midi.track_loop Midi.off].
  destruct (Z.ltb_spec 0 (Z.of_nat (S (S (length rest))))); [| lia].
  unfold Midi.track_body. cbn [Midi.off Midi.ticks Midi.running_status].
  unfold Midi.read_vlq. cbn [Midi.read_vlq_loop].
  change (Py.getitem (d :: s :: rest) 0) with (Some d). cbn [lift rbind].
  rewrite (low_byte_stops d Hd). cbn [Z.eqb rbind].
  unfold Midi.read_status. cbn [Midi.running_status].
  change (Py.getitem (d :: s :: rest) (0 + 1)) with (Some s). cbn [lift rbind].
  destruct (Z.ltb_spec s 0x80); [reflexivity | lia].
Qed.

Lemma parse_track_needs_status_witness :
  0 <= 0 < 128 /\ 0 <= 0x3C < 128 /\
  Midi._parse_track (0 :: 0x3C :: [0x40]) = Raises.
Proof.
  split; [lia |]. split; [lia |].
  apply (parse_track_needs_status 0 0x3C [0x40]); lia.
Defined.

(** ** Parsing a file *)

Lemma tracks_loop_spec (n : nat) (data : list Z) (off : Z) (acc : list Midi.Track) :
  Forall track_ok acc ->
  match Midi.tracks_loop n data off acc with
  | Returns trs => length trs = (length acc + n)%nat /\ Forall track_ok trs
  | Raises => True
  | OutOfFuel => False
  end.
Proof.
  revert off acc; induction n as [| n IH]; intros off acc Hacc.
  - cbn. split; [lia | exact Hacc].
  - cbn [Midi.tracks_loop].
    destruct (list_eq_dec Z.eq_dec _ Midi.MTrk); [| exact I].
    destruct (Midi.read_u32 _) as [trk_len |]; cbn [lift rbind]; [| exact I].
    pose proof (parse_track_spec
                  (Py.slice data (off + 4 + 4) (off + 4 + 4 + trk_len))) as Htr.
    destruct (Midi._parse_track _) as [tr | |]; cbn [rbind];
      [| exact I | exact Htr].
    specialize (IH (off + 4 + 4 + trk_len) (acc ++ [tr])).
    assert (Hacc' : Forall track_ok (acc ++ [tr])).
    { apply Forall_app; split; [exact Hacc |].
      constructor; [| constructor]. split; apply Htr. }
    specialize (IH Hacc').
    destruct (Midi.tracks_loop n data _ (acc ++ [tr])); [| exact I | exact IH].
    rewrite length_app in IH. cbn [length] in IH.
    split; [lia | apply IH].
Qed.

Lemma slice_length_bound (data : list Z) (lo hi : Z) :
  0 <= lo ->
  Z.of_nat (length (Py.slice data lo hi))
    <= Z.max 0 (Z.of_nat (length data) - lo).
Proof.
  intros Hlo. unfold Py.slice, Py.slice_bound.
  rewrite length_firstn, length_skipn.
  destruct (Z.ltb_spec lo 0); [lia |]. destruct (Z.ltb_spec hi 0); lia.
Qed.

Lemma read_u16_length (be : list Z) (v : Z) :
  Midi.read_u16 be = Some v -> length be = 2%nat.
Proof.
  destruct be as [| b0 [| b1 [| b2 be]]]; simpl; intros H;
    try discriminate; reflexivity.
Qed.

Lemma slice_front (data : list Z) : Py.slice data 0 (0 + 4) = firstn 4 data.
Proof.
  unfold Py.slice, Py.slice_bound. change (0 + 4) with 4.
  change (0 <? 0) with false. change (4 <? 0) with false. cbv iota.
  rewrite (Z.min_l 0) by lia. rewrite Z.sub_0_r. cbn [Z.to_nat skipn].
  destruct (Z.le_gt_cases 4 (Z.of_nat (length data))).
  - rewrite Z.min_l by lia. reflexivity.
  - rewrite Z.min_r by lia. rewrite Nat2Z.id.
    rewrite firstn_all, firstn_all2 by lia. reflexivity.
Qed.

(** [_parse] ends on every byte sequence.  When it returns, the data starts
    with the bytes of MThd, the time division has its top bit clear, there
    are exactly [ntrks] tracks, and in each the events are in order of time
    and well shaped. *)
Theorem parse_returns (data : list Z) :
  Midi._parse data <> OutOfFuel /\
  forall mid,
    Midi._parse data = Returns mid ->
    firstn 4 data = Midi.MThd /\
    Z.land (Midi.division mid) 0x8000 = 0 /\
    length (Midi.tracks mid) = Z.to_nat (Midi.ntrks mid) /\
    Forall track_ok (Midi.tracks mid).
Proof.
  unfold Midi._parse. rewrite slice_front.
  destruct (list_eq_dec Z.eq_dec (firstn 4 data) Midi.MThd) as [Hhd | _];
    [| split; [discriminate | intros mid H; discriminate]].
  destruct (Midi.read_u32 _) as [hdr_len |]; cbn [lift rbind];
    [| split; [discriminate | intros mid H; discriminate]].
  destruct (Midi.read_u16 _) as [fmt |]; cbn [lift rbind];
    [| split; [discriminate | intros mid H; discriminate]].
  destruct (Midi.read_u16 _) as [n |]; cbn [lift rbind];
    [| split; [discriminate | intros mid H; discriminate]].
  destruct (Midi.read_u16 _) as [dv |]; cbn [lift rbind];
    [| split; [discriminate | intros mid H; discriminate]].
  destruct (Z.eqb_spec (Z.land dv 0x8000) 0) as [Hdv | _];
    [| split; [discriminate | intros mid H; discriminate]].
  pose proof (tracks_loop_spec (Z.to_nat n) data (0 + 4 + 4 + hdr_len) []
                (Forall_nil _)) as Hloop.
  destruct (Midi.tracks_loop (Z.to_nat n) data _ []) as [trs | |];
    cbn [rbind]; [| split; [discriminate | intros mid H; discriminate]
                  | destruct Hloop].
  split; [discriminate |]. intros mid H. injection H as <-.
  cbn [Midi.division Midi.ntrks Midi.tracks].
  destruct Hloop as [Hlen Hok]. cbn [length] in Hlen.
  repeat apply conj; auto.
Qed.

Lemma parse_returns_witness :
  exists mid,
    Midi._parse [77; 84; 104; 100; 0; 0; 0; 6; 0; 0; 0; 1; 1; 0xE0;
                 77; 84; 114; 107; 0; 0; 0; 4; 0; 0x90; 0x3C; 0x40]
      = Returns mid /\
    firstn 4 [77; 84; 104; 100; 0; 0; 0; 6; 0; 0; 0; 1; 1; 0xE0;
              77; 84; 114; 107; 0; 0; 0; 4; 0; 0x90; 0x3C; 0x40] = Midi.MThd /\
    Z.land (Midi.division mid) 0x8000 = 0 /\
    length (Midi.tracks mid) = Z.to_nat (Midi.ntrks mid) /\
    Forall track_ok (Midi.tracks mid).
Proof.
  eexists. split; [reflexivity |].
  apply (parse_returns [77; 84; 104; 100; 0; 0; 0; 6; 0; 0; 0; 1; 1; 0xE0;
                        77; 84; 114; 107; 0; 0; 0; 4; 0; 0x90; 0x3C; 0x40]).
  reflexivity.
Defined.

(** A file of fewer than 14 bytes, too short for the header chunk, is
    rejected. *)
Theorem parse_rejects_short (data : list Z) :
  (length data < 14)%nat -> Midi._parse data = Raises.
Proof.
  intros Hshort. unfold Midi._parse.
  destruct (list_eq_dec Z.eq_dec _ Midi.MThd) as [_ | _]; [| reflexivity].
  destruct (Midi.read_u32 _) as [hdr_len |] eqn:Hlen; cbn [lift rbind];
    [| reflexivity].
  set (hdr := Py.slice data (0 + 4 + 4) (0 + 4 + 4 + hdr_len)).
  assert (Hhdr : Z.of_nat (length hdr) <= 5).
  { pose proof (slice_length_bound data (0 + 4 + 4) (0 + 4 + 4 + hdr_len)
                  ltac:(lia)) as H. fold hdr in H. lia. }
  destruct (Midi.read_u16 (Py.slice hdr 0 2)); cbn [lift rbind]; [| reflexivity].
  destruct (Midi.read_u16 (Py.slice hdr 2 4)); cbn [lift rbind]; [| reflexivity].
  destruct (Midi.read_u16 (Py.slice hdr 4 6)) as [dv |] eqn:Hdv;
    cbn [lift rbind]; [| reflexivity].
  apply read_u16_length in Hdv.
  pose proof (slice_length_bound hdr 4 6 ltac:(lia)) as H. lia.
Qed.

Lemma parse_rejects_short_witness :
  (length [77; 84; 104; 100; 0; 0; 0; 6; 0; 1] < 14)%nat /\
  Midi._parse [77; 84; 104; 100; 0; 0; 0; 6; 0; 1] = Raises.
Proof.
  split; [simpl; lia |].
  apply (parse_rejects_short [77; 84; 104; 100; 0; 0; 0; 6; 0; 1]). simpl. lia.
Defined.

(** ** Sorting by key *)

Lemma insert_by_key_forall {A : Type} (P : Z * A -> Prop) (x : Z * A) (l : list (Z * A)) :
  P x -> Forall P l -> Forall P (Midi.insert_by_key x l).
Proof.
  intros Hx. induction 1 as [| y l Hy Hl IH]; simpl.
  - constructor; [exact Hx | constructor].
  - destruct (fst x <=? fst y).
    + constructor; [exact Hx | constructor; assumption].
    + constructor; assumption.
Qed.

Lemma sort_by_key_forall {A : Type} (P : Z * A -> Prop) (l : list (Z * A)) :
  Forall P l -> Forall P (Midi.sort_by_key l).
Proof.
  induction 1 as [| x l Hx Hl IH]; simpl; [constructor |].
  apply insert_by_key_forall; assumption.
Qed.

Lemma insert_by_key_sorted {A : Type} (x : Z * A) (l : list (Z * A)) :
  StronglySorted key_le l -> StronglySorted key_le (Midi.insert_by_key x l).
Proof.
  induction 1 as [| y l Hs IH Hall]; simpl.
  - constructor; constructor.
  - destruct (Z.leb_spec (fst x) (fst y)) as [Hle | Hgt].
    + constructor; [constructor; assumption |].
      constructor; [exact Hle |].
      eapply Forall_impl; [| exact Hall]. unfold key_le. intros z Hz. lia.
    + constructor; [exact IH |].
      apply insert_by_key_forall; [unfold key_le; lia | exact Hall].
Qed.

Lemma sort_by_key_sorted {A : Type} (l : list (Z * A)) :
  StronglySorted key_le (Midi.sort_by_key l).
Proof.
  induction l as [| x l IH]; simpl; [constructor |].
  apply insert_by_key_sorted, IH.
Qed.

Lemma insert_by_key_perm {A : Type} (x : Z * A) (l : list (Z * A)) :
  Permutation (Midi.insert_by_key x l) (x :: l).
Proof.
  induction l as [| y l IH]; simpl; [apply Permutation_refl |].
  destruct (fst x <=? fst y); [apply Permutation_refl |].
  eapply perm_trans; [apply perm_skip, IH | apply perm_swap].
Qed.

Lemma sort_by_key_perm {A : Type} (l : list (Z * A)) :
  Permutation (Midi.sort_by_key l) l.
Proof.
  induction l as [| x l IH]; simpl; [apply perm_nil |].
  eapply perm_trans; [apply insert_by_key_perm | apply perm_skip, IH].
Qed.

Lemma insert_by_key_front {A : Type} (x : Z * A) (l : list (Z * A)) :
  Forall (key_le x) l -> Midi.insert_by_key x l = x :: l.
Proof.
  destruct 1 as [| y l Hy Hl]; simpl; [reflexivity |].
  unfold key_le in Hy. destruct (Z.leb_spec (fst x) (fst y)); [reflexivity | lia].
Qed.

(** ** The tempo map *)

Lemma tempo_of_ticks (ev : Midi.MidiEvent) :
  Forall (fun p => fst p = Midi.abs_ticks ev) (Midi.tempo_of ev).
Proof.
  unfold Midi.tempo_of.
  destruct (Midi.type ev); try constructor.
  destruct (Midi.meta_type ev) as [mt |]; [| constructor].
  destruct (Z.eq_dec mt 0x51) as [-> | Hne].
  - destruct (Midi.meta_data ev) as [| b0 [| b1 [| b2 [| ? ?]]]];
      repeat constructor.
  - destruct mt as [| p | p]; try constructor.
    repeat (destruct p as [p | p |]; try constructor).
    exfalso. apply Hne. reflexivity.
Qed.

(** When no event has a negative time, as in every parsed track, the tempo
    map starts with the default 500000 microseconds per beat at tick 0, even
    if the file sets a tempo at tick 0 itself; after it come the tempo events
    of the track, all of them and nothing else, in order of their ticks. *)
Theorem build_tempo_map_default_first (first_track_events : list Midi.MidiEvent) :
  Forall (fun e => 0 <= Midi.abs_ticks e) first_track_events ->
  exists rest,
    Midi.build_tempo_map first_track_events = (0, Midi.DEFAULT_TEMPO) :: rest /\
    StronglySorted key_le (Midi.build_tempo_map first_track_events) /\
    Permutation rest (flat_map Midi.tempo_of first_track_events).
Proof.
  intros Hticks. unfold Midi.build_tempo_map.
  change ([(0, Midi.DEFAULT_TEMPO)] ++ flat_map Midi.tempo_of first_track_events)
    with ((0, Midi.DEFAULT_TEMPO) :: flat_map Midi.tempo_of first_track_events).
  cbn [Midi.sort_by_key].
  exists (Midi.sort_by_key (flat_map Midi.tempo_of first_track_events)).
  assert (Hkeys : Forall (key_le (0, Midi.DEFAULT_TEMPO))
                    (flat_map Midi.tempo_of first_track_events)).
  { apply Forall_flat_map. eapply Forall_impl; [| exact Hticks].
    cbn. intros e He. eapply Forall_impl; [| apply tempo_of_ticks].
    unfold key_le. cbn. intros p Hp. lia. }
  rewrite insert_by_key_front by (apply sort_by_key_forall, Hkeys).
  split; [reflexivity |]. split; [| apply sort_by_key_perm].
  constructor; [apply sort_by_key_sorted | apply sort_by_key_forall, Hkeys].
Qed.

Lemma build_tempo_map_default_first_witness :
  Forall (fun e => 0 <= Midi.abs_ticks e)
    [Midi.mkEvent 0 Midi.meta None None None (Some 0x51) [7; 0xA1; 0x20]] /\
  exists rest,
    Midi.build_tempo_map
      [Midi.mkEvent 0 Midi.meta None None None (Some 0x51) [7; 0xA1; 0x20]]
      = (0, Midi.DEFAULT_TEMPO) :: rest /\
    StronglySorted key_le
      (Midi.build_tempo_map
         [Midi.mkEvent 0 Midi.meta None None None (Some 0x51) [7; 0xA1; 0x20]]) /\
    Permutation rest
      (flat_map Midi.tempo_of
         [Midi.mkEvent 0 Midi.meta None None None (Some 0x51) [7; 0xA1; 0x20]]).
Proof.
  split; [repeat constructor; simpl; lia |].
  apply (build_tempo_map_default_first
           [Midi.mkEvent 0 Midi.meta None None None (Some 0x51) [7; 0xA1; 0x20]]).
  repeat constructor; simpl; lia.
Defined.

(** ** Note intervals *)

Lemma collect_fold (events : list Midi.MidiEvent) :
  forall (on_stacks : Midi.on_stacks_t) (notes : list (Z * (Z * option Z))) (b : Z),
    StronglySorted Z.le (map Midi.abs_ticks events) ->
    Forall (fun e => b <= Midi.abs_ticks e) events ->
    (forall k x, In x (on_stacks k) -> x <= b) ->
    Forall interval_ok notes ->
    Forall interval_ok (snd (fold_left Midi.collect_body events (on_stacks, notes))).
Proof.
  induction events as [| ev rest IH]; intros on_stacks notes b Hs Hb Hpend Hnotes.
  - exact Hnotes.
  - cbn [map] in Hs. inversion Hs as [| ? ? Hs' Hhead]; subst.
    inversion Hb as [| ? ? Hev Hrest]; subst.
    assert (Hb' : Forall (fun e => Midi.abs_ticks ev <= Midi.abs_ticks e) rest).
    { rewrite Forall_map in Hhead. exact Hhead. }
    cbn [fold_left]. unfold Midi.collect_body at 2.
    destruct (Midi.type ev).
    + apply (IH _ _ (Midi.abs_ticks ev)); auto.
      intros k x Hx. specialize (Hpend k x Hx). lia.
    + apply (IH _ _ (Midi.abs_ticks ev)); auto.
      intros k x. unfold Midi.set_stack.
      destruct (Midi.key_eqb k (Midi.note ev)).
      * intros Hx. apply in_app_or in Hx. destruct Hx as [Hx | [<- | []]];
          [specialize (Hpend _ x Hx); lia | lia].
      * intros Hx. specialize (Hpend k x Hx). lia.
    + destruct (on_stacks (Midi.note ev)) as [| st pending] eqn:Hstack.
      * apply (IH _ _ (Midi.abs_ticks ev)); auto.
        intros k x Hx. specialize (Hpend k x Hx). lia.
      * assert (Hst : st <= b).
        { apply (Hpend (Midi.note ev)). rewrite Hstack. left. reflexivity. }
        apply (IH _ _ (Midi.abs_ticks ev)); auto.
        -- intros k x. unfold Midi.set_stack.
           destruct (Midi.key_eqb k (Midi.note ev)).
           ++ intros Hx.
              assert (x <= b).
              { apply (Hpend (Midi.note ev)). rewrite Hstack. right. exact Hx. }
              lia.
           ++ intros Hx. specialize (Hpend k x Hx). lia.
        -- apply Forall_app; split; [exact Hnotes |].
           constructor; [unfold interval_ok; cbn; lia | constructor].
Qed.

(** For events in order of time, as the parser gives them, no collected note
    ends before it starts, and the notes come out in order of their start. *)
Theorem collect_notes_intervals (events : list Midi.MidiEvent) :
  StronglySorted Z.le (map Midi.abs_ticks events) ->
  Forall (fun n => fst n <= fst (snd n)) (Midi.collect_notes events) /\
  StronglySorted key_le (Midi.collect_notes events).
Proof.
  intros Hs. unfold Midi.collect_notes.
  match goal with
  | |- context [fold_left ?f ?l ?a] =>
      assert (Hall : Forall interval_ok (snd (fold_left f l a)))
  end.
  { destruct events as [| ev rest]; [constructor |].
    apply (collect_fold (ev :: rest) _ _ (Midi.abs_ticks ev) Hs).
    - cbn [map] in Hs. inversion Hs as [| ? ? _ Hhead]; subst.
      constructor; [lia |]. rewrite Forall_map in Hhead. exact Hhead.
    - intros k x [].
    - constructor. }
  revert Hall.
  destruct (fold_left Midi.collect_body events _) as [stacks notes].
  cbn [snd]. intros Hall.
  split; [| apply sort_by_key_sorted].
  apply sort_by_key_forall. exact Hall.
Qed.

Lemma collect_notes_intervals_witness :
  StronglySorted Z.le
    (map Midi.abs_ticks
       [Midi.mkEvent 0 Midi.note_on (Some 0) (Some 60) (Some 64) None [];
        Midi.mkEvent 96 Midi.note_off (Some 0) (Some 60) (Some 0) None []]) /\
  Forall (fun n => fst n <= fst (snd n))
    (Midi.collect_notes
       [Midi.mkEvent 0 Midi.note_on (Some 0) (Some 60) (Some 64) None [];
        Midi.mkEvent 96 Midi.note_off (Some 0) (Some 60) (Some 0) None []]) /\
  StronglySorted key_le
    (Midi.collect_notes
       [Midi.mkEvent 0 Midi.note_on (Some 0) (Some 60) (Some 64) None [];
        Midi.mkEvent 96 Midi.note_off (Some 0) (Some 60) (Some 0) None []]).
Proof.
  assert (H : StronglySorted Z.le
    (map Midi.abs_ticks
       [Midi.mkEvent 0 Midi.note_on (Some 0) (Some 60) (Some 64) None [];
        Midi.mkEvent 96 Midi.note_off (Some 0) (Some 60) (Some 0) None []])).
  { simpl. repeat constructor. lia. }
  split; [exact H |].
  apply (collect_notes_intervals
           [Midi.mkEvent 0 Midi.note_on (Some 0) (Some 60) (Some 64) None [];
            Midi.mkEvent 96 Midi.note_off (Some 0) (Some 60) (Some 0) None []]).
  exact H.
Defined.

(** * The comparison script *)

Lemma int16_small (x : Z) : -32768 <= x < 32768 -> Compare.int16 x = x.
Proof.
  intros H. unfold Compare.int16. rewrite Z.mod_small by lia. lia.
Qed.

Lemma diff_sample_exact (o d : Z) :
  is_sample o -> is_sample d -> Compare.diff_sample o d = o - d.
Proof.
  unfold is_sample, Compare.diff_sample. intros Ho Hd.
  rewrite (int16_small o), (int16_small d) by lia. apply int16_small. lia.
Qed.

Lemma difference_samples (o d : Z) :
  is_sample o -> is_sample d ->
  Compare.uint8 (Compare.diff_centered (Compare.diff_sample o d))
    = Z.max 0 (Z.min 255 (o - d + 128)) /\
  Compare.uint8 (Compare.diff_abs (Compare.diff_sample o d)) = Z.abs (o - d) /\
  Compare.uint8 (Compare.diff_amplified (Compare.diff_sample o d))
    = Z.min 255 (10 * Z.abs (o - d)).
Proof.
  intros Ho Hd. rewrite (diff_sample_exact o d Ho Hd).
  unfold is_sample in Ho, Hd.
  unfold Compare.diff_amplified, Compare.diff_abs, Compare.diff_centered,
    Compare.abs16, Compare.amplification, Compare.clip, Compare.uint8.
  rewrite (int16_small (o - d + 128)), (int16_small (Z.abs (o - d))) by lia.
  rewrite (int16_small (Z.min (Z.max (Z.abs (o - d)) 0) 255 * 10)) by lia.
  repeat split; rewrite Z.mod_small by lia; lia.
Qed.

Lemma combine_samples (original decoded : list Z) (p : Z * Z) :
  Forall is_sample original -> Forall is_sample decoded ->
  In p (combine original decoded) -> is_sample (fst p) /\ is_sample (snd p).
Proof.
  intros Ho Hd Hin. destruct p as [o d]. rewrite Forall_forall in Ho, Hd.
  split; [apply Ho; eapply in_combine_l | apply Hd; eapply in_combine_r];
    exact Hin.
Qed.

(** For two recordings of 8-bit samples with the same rate and length no
    operation wraps: the difference is the plain difference, and the three
    files written hold, sample by sample, the difference moved to 128 and cut
    to [0,255], its absolute value (never cut), and ten times that cut at
    255. *)
Theorem compare_difference_files (rate : Z) (original decoded : list Z) :
  Forall is_sample original -> Forall is_sample decoded ->
  length original = length decoded ->
  exists diff,
    Compare.difference rate rate original decoded = Some diff /\
    diff = map (fun p => fst p - snd p) (combine original decoded) /\
    Compare.difference_raw diff
      = map (fun p => Z.max 0 (Z.min 255 (fst p - snd p + 128)))
          (combine original decoded) /\
    Compare.difference_absolute diff
      = map (fun p => Z.abs (fst p - snd p)) (combine original decoded) /\
    Compare.difference_amplified_10x diff
      = map (fun p => Z.min 255 (10 * Z.abs (fst p - snd p)))
          (combine original decoded).
Proof.
  intros Ho Hd Hlen.
  exists (map (fun p => Compare.diff_sample (fst p) (snd p))
            (combine original decoded)).
  split.
  { unfold Compare.difference. rewrite Z.eqb_refl, Hlen, Nat.eqb_refl.
    reflexivity. }
  unfold Compare.difference_raw, Compare.difference_absolute,
    Compare.difference_amplified_10x, Compare.write_wav.
  rewrite !map_map.
  repeat split; apply map_ext_in; intros p Hp;
    destruct (combine_samples original decoded p Ho Hd Hp) as [H1 H2];
    [ apply diff_sample_exact; assumption
    | apply (difference_samples (fst p) (snd p) H1 H2) .. ].
Qed.

Lemma compare_difference_files_witness :
  Forall is_sample [0; 255; 128] /\ Forall is_sample [255; 0; 128] /\
  length [0; 255; 128] = length [255; 0; 128] /\
  exists diff,
    Compare.difference 8000 8000 [0; 255; 128] [255; 0; 128] = Some diff /\
    diff = map (fun p => fst p - snd p) (combine [0; 255; 128] [255; 0; 128]) /\
    Compare.difference_raw diff
      = map (fun p => Z.max 0 (Z.min 255 (fst p - snd p + 128)))
          (combine [0; 255; 128] [255; 0; 128]) /\
    Compare.difference_absolute diff
      = map (fun p => Z.abs (fst p - snd p)) (combine [0; 255; 128] [255; 0; 128]) /\
    Compare.difference_amplified_10x diff
      = map (fun p => Z.min 255 (10 * Z.abs (fst p - snd p)))
          (combine [0; 255; 128] [255; 0; 128]).
Proof.
  assert (H1 : Forall is_sample [0; 255; 128])
    by (repeat constructor; unfold is_sample; lia).
  assert (H2 : Forall is_sample [255; 0; 128])
    by (repeat constructor; unfold is_sample; lia).
  split; [exact H1 |]. split; [exact H2 |]. split; [reflexivity |].
  apply (compare_difference_files 8000 [0; 255; 128] [255; 0; 128] H1 H2).
  reflexivity.
Defined.

(** The square of a difference is taken in 16 bits: it is the true square
    only while the difference is at most 181 either way; beyond that it has
    wrapped by 65536 and is negative. *)
Theorem compare_squared_wraps (original decoded : Z) :
  is_sample original -> is_sample decoded ->
  (Compare.squared (Compare.diff_sample original decoded)
     = (original - decoded) * (original - decoded)
   <-> Z.abs (original - decoded) <= 181) /\
  (181 < Z.abs (original - decoded) ->
   Compare.squared (Compare.diff_sample original decoded)
     = (original - decoded) * (original - decoded) - 65536 /\
   Compare.squared (Compare.diff_sample original decoded) < 0).
Proof.
  intros Ho Hd. rewrite (diff_sample_exact _ _ Ho Hd).
  unfold is_sample in Ho, Hd. remember (original - decoded) as x eqn:Ex.
  assert (Hx : -255 <= x <= 255) by lia. clear Ex Ho Hd original decoded.
  unfold Compare.squared, Compare.int16.
  destruct (Z_le_gt_dec (Z.abs x) 181) as [Hsmall | Hbig].
  - assert (0 <= x * x <= 32761) by nia.
    rewrite Z.mod_small by lia. split; [split; intros; lia | lia].
  - assert (33124 <= x * x <= 65025) by nia.
    replace ((x * x + 32768) mod 65536) with (x * x + 32768 - 65536).
    + split; [split; intros; lia | intros _; lia].
    + apply Z.mod_unique with (q := 1); lia.
Qed.

Lemma compare_squared_wraps_witness :
  is_sample 255 /\ is_sample 0 /\ 181 < Z.abs (255 - 0) /\
  Compare.squared (Compare.diff_sample 255 0) = (255 - 0) * (255 - 0) - 65536 /\
  Compare.squared (Compare.diff_sample 255 0) < 0.
Proof.
  assert (H1 : is_sample 255) by (unfold is_sample; lia).
  assert (H2 : is_sample 0) by (unfold is_sample; lia).
  split; [exact H1 |]. split; [exact H2 |]. split; [simpl; lia |].
  apply (compare_squared_wraps 255 0 H1 H2). simpl. lia.
Defined.

(** * What the encoder script writes *)

(** ** The WAV file around the raw data *)

Lemma pack_I_ok (n : Z) :
  0 <= n < 2 ^ 32 ->
  exists w, Emit.pack_I n = Some w /\ length w = 4%nat /\ le_value w = n.
Proof.
  intros Hn. unfold Emit.pack_I.
  destruct (Z.leb_spec 0 n); [| lia]. destruct (Z.ltb_spec n (2 ^ 32)); [| lia].
  eexists. split; [reflexivity |]. split; [reflexivity |].
  unfold le_value. cbn [fold_right].
  change (2 ^ 32) with 4294967296 in *.
  zify; Z.to_euclidean_division_equations; lia.
Qed.

Lemma pack_H_ok (n : Z) :
  0 <= n < 2 ^ 16 ->
  exists w, Emit.pack_H n = Some w /\ length w = 2%nat.
Proof.
  intros Hn. unfold Emit.pack_H.
  destruct (Z.leb_spec 0 n); [| lia]. destruct (Z.ltb_spec n (2 ^ 16)); [| lia].
  eexists. split; reflexivity.
Qed.

(** For raw data of less than 2^31 - 1024 bytes the file written is a header
    of 60 bytes followed by the raw bytes unchanged.  The size field of the
    RIFF chunk holds the data size plus 48, which is the length of the file
    less 12; the data chunk's size field holds the data size; and the fact
    chunk counts 2041 samples for every block of 1024 bytes begun. *)
Theorem from_raw_wav_layout (raw : list Z) :
  Z.of_nat (length raw) < 2 ^ 31 - 1024 ->
  exists header,
    Emit.from_raw_wav raw = Some (header ++ raw) /\
    length header = 60%nat /\
    firstn 4 header = Emit.RIFF /\
    le_value (firstn 4 (skipn 4 header)) = Z.of_nat (length (header ++ raw)) - 12 /\
    le_value (firstn 4 (skipn 48 header))
      = 2041 * ((Z.of_nat (length raw) + 1023) / 1024) /\
    firstn 4 (skipn 52 header) = Emit.data /\
    le_value (firstn 4 (skipn 56 header)) = Z.of_nat (length raw).
Proof.
  intros Hsize. unfold Emit.from_raw_wav.
  set (n := Z.of_nat (length raw)) in *.
  assert (Hn : 0 <= n) by (subst n; lia).
  change (2 ^ 31) with 2147483648 in Hsize.
  change (1 + (1024 - 4) * 2) with 2041.
  change (8000 * 1024 / 2041) with 4013.
  replace (n + 1024 - 1) with (n + 1023) by lia.
  assert (Hblocks : 0 <= 2041 * ((n + 1023) / 1024) < 2 ^ 32).
  { change (2 ^ 32) with 4294967296.
    zify; Z.to_euclidean_division_equations; lia. }
  destruct (pack_I_ok (36 + 12 + n)) as (w1 & -> & L1 & V1);
    [change (2 ^ 32) with 4294967296; lia |].
  destruct (pack_I_ok (2041 * ((n + 1023) / 1024)) Hblocks) as (w12 & -> & L12 & V12).
  destruct (pack_I_ok n) as (w13 & -> & L13 & V13);
    [change (2 ^ 32) with 4294967296; lia |].
  cbn [bind].
  destruct w1 as [| a0 [| a1 [| a2 [| a3 [| ? ?]]]]]; try discriminate L1.
  destruct w12 as [| b0 [| b1 [| b2 [| b3 [| ? ?]]]]]; try discriminate L12.
  destruct w13 as [| c0 [| c1 [| c2 [| c3 [| ? ?]]]]]; try discriminate L13.
  eexists. split.
  { instantiate (1 := Emit.RIFF ++ [a0; a1; a2; a3] ++ Emit.WAVE ++ Emit.fmt_
      ++ [20; 0; 0; 0] ++ [17; 0] ++ [1; 0] ++ [64; 31; 0; 0]
      ++ [173; 15; 0; 0] ++ [0; 4] ++ [4; 0] ++ [2; 0] ++ [249; 7]
      ++ Emit.fact ++ [4; 0; 0; 0] ++ [b0; b1; b2; b3]
      ++ Emit.data ++ [c0; c1; c2; c3]).
    reflexivity. }
  split; [reflexivity |]. split; [reflexivity |].
  split.
  { change (le_value [a0; a1; a2; a3] = Z.of_nat (length
      ((Emit.RIFF ++ [a0; a1; a2; a3] ++ Emit.WAVE ++ Emit.fmt_
        ++ [20; 0; 0; 0] ++ [17; 0] ++ [1; 0] ++ [64; 31; 0; 0]
        ++ [173; 15; 0; 0] ++ [0; 4] ++ [4; 0] ++ [2; 0] ++ [249; 7]
        ++ Emit.fact ++ [4; 0; 0; 0] ++ [b0; b1; b2; b3]
        ++ Emit.data ++ [c0; c1; c2; c3]) ++ raw)) - 12).
    rewrite V1, length_app. cbn [length app Emit.RIFF Emit.WAVE Emit.fmt_
      Emit.fact Emit.data]. fold n. lia. }
  split; [exact V12 |]. split; [reflexivity | exact V13].
Qed.

Lemma from_raw_wav_layout_witness :
  Z.of_nat (length [1; 2; 3]) < 2 ^ 31 - 1024 /\
  exists header,
    Emit.from_raw_wav [1; 2; 3] = Some (header ++ [1; 2; 3]) /\
    length header = 60%nat /\
    firstn 4 header = Emit.RIFF /\
    le_value (firstn 4 (skipn 4 header))
      = Z.of_nat (length (header ++ [1; 2; 3])) - 12 /\
    le_value (firstn 4 (skipn 48 header))
      = 2041 * ((Z.of_nat (length [1; 2; 3]) + 1023) / 1024) /\
    firstn 4 (skipn 52 header) = Emit.data /\
    le_value (firstn 4 (skipn 56 header)) = Z.of_nat (length [1; 2; 3]).
Proof.
  split; [simpl; lia |].
  apply (from_raw_wav_layout [1; 2; 3]). simpl. lia.
Defined.

(** ** The C array *)

Lemma slice_nonneg (data : list Z) (lo hi : Z) :
  0 <= lo <= hi ->
  Py.slice data lo hi = firstn (Z.to_nat (hi - lo)) (skipn (Z.to_nat lo) data).
Proof.
  intros Hlo.
  destruct (Z.le_gt_cases hi (Z.of_nat (length data))) as [Hhi | Hhi];
    [apply slice_in_range; assumption |].
  unfold Py.slice, Py.slice_bound.
  destruct (Z.ltb_spec lo 0); [lia |]. destruct (Z.ltb_spec hi 0); [lia |].
  rewrite (Z.min_r hi) by lia.
  destruct (Z.le_gt_cases lo (Z.of_nat (length data))) as [Hin | Hout].
  - rewrite Z.min_l by lia.
    rewrite !firstn_all2 by (rewrite length_skipn; lia). reflexivity.
  - rewrite Z.min_r by lia.
    rewrite !skipn_all2 by lia. rewrite !firstn_nil. reflexivity.
Qed.

Lemma firstn_add {A : Type} (a b : nat) (l : list A) :
  firstn (a + b) l = firstn a l ++ firstn b (skipn a l).
Proof.
  revert l; induction a as [| a IH]; intros l; [reflexivity |].
  destruct l as [| x l]; simpl.
  - rewrite firstn_nil. reflexivity.
  - rewrite IH. reflexivity.
Qed.

Lemma rows_concat (raw : list Z) (m : nat) :
  concat (map (fun i => Py.slice raw i (i + 16))
            (map (fun k => 16 * Z.of_nat k) (seq 0 m)))
    = firstn (16 * m) raw.
Proof.
  induction m as [| m IH]; [reflexivity |].
  rewrite seq_S, !map_app, concat_app, IH. cbn [map concat plus].
  rewrite app_nil_r, slice_nonneg by lia.
  replace (Z.to_nat (16 * Z.of_nat m + 16 - 16 * Z.of_nat m)) with 16%nat by lia.
  replace (Z.to_nat (16 * Z.of_nat m)) with (16 * m)%nat by lia.
  replace (16 * S m)%nat with (16 * m + 16)%nat by lia.
  symmetry. apply firstn_add.
Qed.

(** The lines of the C array hold every byte of the data once and in order,
    16 to a line; there are [ceil(n / 16)] lines and none is empty, so only
    the last can be short. *)
Theorem rows_cover (raw : list Z) :
  concat (Emit.rows raw) = raw /\
  length (Emit.rows raw) = ((length raw + 15) / 16)%nat /\
  Forall (fun row => (1 <= length row <= 16)%nat) (Emit.rows raw) /\
  forall k, (k < length (Emit.rows raw))%nat ->
    nth k (Emit.rows raw) [] = firstn 16 (skipn (16 * k) raw).
Proof.
  unfold Emit.rows, Emit.row_starts.
  set (m := Z.to_nat ((Z.of_nat (length raw) + 15) / 16)).
  assert (Hm : m = ((length raw + 15) / 16)%nat).
  { subst m. zify; Z.to_euclidean_division_equations; lia. }
  assert (Hrow : forall k, (k < m)%nat ->
            Py.slice raw (16 * Z.of_nat k) (16 * Z.of_nat k + 16)
              = firstn 16 (skipn (16 * k) raw)).
  { intros k Hk. rewrite slice_nonneg by lia. f_equal; [lia | f_equal; lia]. }
  split; [| split; [| split]].
  - rewrite rows_concat. apply firstn_all2.
    rewrite Hm. zify; Z.to_euclidean_division_equations; lia.
  - rewrite !length_map, length_seq. exact Hm.
  - apply Forall_forall. intros row Hin.
    apply in_map_iff in Hin. destruct Hin as (i & <- & Hi).
    apply in_map_iff in Hi. destruct Hi as (k & <- & Hk).
    apply in_seq in Hk. rewrite Hrow by lia.
    rewrite length_firstn, length_skipn.
    rewrite Hm in Hk. zify; Z.to_euclidean_division_equations; lia.
  - intros k Hk. rewrite !length_map, length_seq in Hk.
    rewrite map_map.
    rewrite (nth_indep _ [] (Py.slice raw (16 * Z.of_nat 0) (16 * Z.of_nat 0 + 16)))
      by (rewrite length_map, length_seq; exact Hk).
    rewrite (map_nth (fun k => Py.slice raw (16 * Z.of_nat k) (16 * Z.of_nat k + 16))).
    rewrite seq_nth by exact Hk. cbn [plus]. apply Hrow, Hk.
Qed.

Lemma rows_cover_witness :
  (1 < length (Emit.rows (repeat 7%Z 20)))%nat /\
  nth 1 (Emit.rows (repeat 7 20)) [] = firstn 16 (skipn (16 * 1) (repeat 7 20)).
Proof.
  split; [vm_compute; lia |].
  apply (rows_cover (repeat 7 20)). vm_compute. lia.
Defined.

(** ** Reading the C array back *)

Module ArrayText.

Import Ascii String.
Import ArrayReader.

Lemma digit_value_hex (d : Z) :
  0 <= d < 16 -> digit_value (Emit.hex_digit d) = Some d.
Proof.
  intros H.
  assert (d = 0 \/ d = 1 \/ d = 2 \/ d = 3 \/ d = 4 \/ d = 5 \/ d = 6 \/ d = 7 \/
          d = 8 \/ d = 9 \/ d = 10 \/ d = 11 \/ d = 12 \/ d = 13 \/ d = 14 \/
          d = 15) as Hd by lia.
  repeat (destruct Hd as [-> | Hd]; [reflexivity |]). subst. reflexivity.
Qed.

Lemma read_item (b : Z) (rest : string) :
  0 <= b < 256 ->
  read_items (Emit.item b ++ rest) = b :: read_items rest.
Proof.
  intros Hb. unfold Emit.item. cbn [append read_items].
  change (is_char "0" 48 && is_char "x" 120) with true. cbv iota.
  rewrite !digit_value_hex
    by (pose proof (Z.mod_pos_bound b 16); pose proof (Z.div_pos b 16);
        assert (b / 16 < 16) by (apply Z.div_lt_upper_bound; lia); lia).
  f_equal. pose proof (Z.div_mod b 16). lia.
Qed.

Lemma read_skip (c : ascii) (tail : string) :
  is_char c 48 = false -> read_items (String c tail) = read_items tail.
Proof.
  intros Hc. cbn [read_items]. rewrite Hc. cbn [andb].
  destruct tail as [| x [| h [| l tail]]]; reflexivity.
Qed.

Lemma append_assoc (a b c : string) : ((a ++ b) ++ c = a ++ (b ++ c))%string.
Proof.
  induction a as [| x a IH]; [reflexivity |]. cbn. rewrite IH. reflexivity.
Qed.

Lemma read_join (chunk : list Z) (rest : string) :
  Forall (fun b => 0 <= b < 256) chunk ->
  read_items (Emit.join (map Emit.item chunk) ++ String "," rest)
    = (chunk ++ read_items rest)%list.
Proof.
  intros Hall. induction Hall as [| b chunk Hb Hchunk IH].
  - cbn [map Emit.join append List.app]. apply read_skip. reflexivity.
  - destruct chunk as [| b' chunk].
    + cbn [map Emit.join]. rewrite read_item by exact Hb. cbn [List.app].
      f_equal. apply read_skip. reflexivity.
    + change (Emit.join (map Emit.item (b :: b' :: chunk)))
        with (Emit.item b ++ ", " ++ Emit.join (map Emit.item (b' :: chunk)))%string.
      rewrite !append_assoc, read_item by exact Hb. cbn [List.app]. f_equal.
      cbn [append]. rewrite !read_skip by reflexivity. exact IH.
Qed.

Lemma read_row (chunk : list Z) (rest : string) :
  Forall (fun b => 0 <= b < 256) chunk ->
  read_items (Emit.row_text chunk ++ rest) = (chunk ++ read_items rest)%list.
Proof.
  intros Hall. unfold Emit.row_text, Emit.newline.
  rewrite !append_assoc. cbn [append].
  rewrite !read_skip by reflexivity.
  rewrite read_join by exact Hall. f_equal.
  apply read_skip. reflexivity.
Qed.

Lemma read_rows (chunks : list (list Z)) :
  Forall (Forall (fun b => 0 <= b < 256)) chunks ->
  read_items (fold_right append EmptyString (map Emit.row_text chunks))
    = List.concat chunks.
Proof.
  induction 1 as [| chunk chunks Hc Hcs IH]; [reflexivity |].
  cbn [map fold_right List.concat]. rewrite read_row by exact Hc.
  rewrite IH. reflexivity.
Qed.

Lemma rows_concat_all (raw : list Z) : List.concat (Emit.rows raw) = raw.
Proof.
  unfold Emit.rows, Emit.row_starts. rewrite rows_concat.
  apply firstn_all2. zify; Z.to_euclidean_division_equations; lia.
Qed.

(** The text of the C array holds exactly the bytes of the data: reading the
    numbers [0xHH] off the text written for a byte sequence gives that
    sequence back, whatever its length. *)
Theorem array_reads_back (raw : list Z) :
  Forall (fun b => 0 <= b < 256) raw ->
  read_items (Emit.array_text raw) = raw.
Proof.
  intros Hraw. unfold Emit.array_text.
  rewrite read_rows; [apply rows_concat_all |].
  apply Forall_forall. intros row Hrow.
  apply Forall_forall. intros b Hb.
  rewrite Forall_forall in Hraw. apply Hraw.
  rewrite <- (rows_concat_all raw). apply in_concat. exists row. split; assumption.
Qed.

Lemma array_reads_back_witness :
  Forall (fun b => 0 <= b < 256) [0; 171; 255] /\
  read_items (Emit.array_text [0; 171; 255]) = [0; 171; 255].
Proof.
  assert (H : Forall (fun b => 0 <= b < 256) [0; 171; 255])
    by (repeat constructor; lia).
  split; [exact H |]. apply (array_reads_back [0; 171; 255] H).
Defined.

End ArrayText.
